(** * kitchen_sync: the work-distribution queue ([src/sync_queue.h])

    A shallow embedding of [KeyRangeToCheck], [lower_priority], [TableJob]
    and [SyncQueue], and the properties of the dispatcher: claim order,
    sharing mode, borrowing, and cancellation.

    Conventions.
    - A [shared_ptr<TableJob>] is an address ([job]); the objects live in a
      store ([jobs]) that is part of the dispatcher state, so that the
      pending queue, both sets, and the worker code all alias one object.
    - [std::set<shared_ptr<TableJob>>] is a [gset job]; iteration visits it
      in increasing address order, as [std::set] does.
    - A member function that mutates [*this] takes the state and returns the
      new state (with its result, when it has one).
    - [cond.wait(lock)] is a return to the scheduler: a call that reaches it
      yields [Waiting]; the woken thread re-enters the [while (true)] loop of
      [borrow_work] at its head. *)

From stdpp Require Import gmap strings list sorting.

Local Open Scope N_scope.
Set Warnings "-clear-no-such-hyp".

(** ** Range descriptors *)

(** Modelled from the spec: [ColumnValues] is declared in [schema.h], which is
    not part of the sources at hand; the spec calls it a composite
    primary-key value. *)
Definition ColumnValues : Type := list string.

(** [typedef tuple<ColumnValues, ColumnValues> KeyRange;] *)
Definition KeyRange : Type := (ColumnValues * ColumnValues)%type.

Record KeyRangeToCheck := mkKeyRangeToCheck {
  key_range : KeyRange;
  estimated_rows_in_range : N;
  rows_to_hash : N;
  priority : N
}.

(** The constructor [KeyRangeToCheck(prev_key, last_key, ...)]. *)
Definition KeyRangeToCheck_new (prev_key last_key : ColumnValues)
    (estimated_rows rows_to_hash priority : N) : KeyRangeToCheck :=
  mkKeyRangeToCheck (prev_key, last_key) estimated_rows rows_to_hash priority.

(** [numeric_limits<size_t>::max()] on a 64-bit target. *)
Definition UNKNOWN_ROW_COUNT : N := 2 ^ 64 - 1.

(** [struct lower_priority]: the comparison given to the priority queue. *)
Definition lower_priority (l r : KeyRangeToCheck) : bool :=
  priority l <? priority r.

(** ** [std::priority_queue<T, deque<T>, Compare>]

    The container adaptor keeps its elements so that [top()] is an element
    that [Compare] puts below no other one.  The model keeps the sequence
    ordered with the top at the head: [push] walks past every element that
    the new one is below (or equivalent to, under [Compare]).

    The library leaves the order among elements that [Compare] treats as
    equivalent open, and a binary heap does not keep them in push order as
    this sequence does.  The results below use the top, membership and
    permutations only, and so hold of any such order. *)
Module PriorityQueue.
Section with_compare.
Context {T : Type} (comp : T → T → bool).

Definition t := list T.

Definition empty_queue : t := [].

Definition empty (q : t) : bool :=
  match q with [] => true | _ :: _ => false end.

Definition top (q : t) : option T := head q.

Fixpoint push (x : T) (q : t) : t :=
  match q with
  | [] => [x]
  | y :: q' => if comp y x then x :: y :: q' else y :: push x q'
  end.

Definition pop (q : t) : t := tail q.

(** What a user of the queue can do to it. *)
Inductive action := Push (x : T) | Pop.

Definition act (q : t) (a : action) : t :=
  match a with
  | Push x => push x q
  | Pop => pop q
  end.

Definition play (acts : list action) : t := foldl act empty_queue acts.

(** No element of the queue is above an earlier one. *)
Definition ordered (q : t) : Prop :=
  StronglySorted (λ a b, comp a b = false) q.
End with_compare.
End PriorityQueue.

Abbreviation ready_queue := (list KeyRangeToCheck).

(** ** Table jobs *)

(** Modelled from the spec: [Table] is declared in [schema.h], which is not
    part of the sources at hand; the spec lists what the dispatcher consumes
    of a table descriptor: its identity, its primary-key columns, and
    whether its key space supports subdivision. *)
Record Table := mkTable {
  id_from_name : string;
  primary_key_columns : list N;
  primary_key_subdividable : bool
}.

Record TableJob := mkTableJob {
  table : Table;
  table_id : string;
  subdividable : bool;
  ranges_to_retrieve : list KeyRange;
  ranges_to_check : ready_queue;
  notify_when_work_could_be_shared : bool;
  time_started : Z;
  time_finished : Z;
  hash_commands : N;
  hash_commands_completed : N;
  rows_commands : N
}.

(** The constructor [TableJob(const Table &table)]. *)
Definition TableJob_new (t : Table) : TableJob :=
  {| table := t;
     table_id := id_from_name t;
     subdividable := primary_key_subdividable t;
     ranges_to_retrieve := [];
     ranges_to_check := PriorityQueue.empty_queue;
     notify_when_work_could_be_shared := false;
     time_started := 0%Z;
     time_finished := 0%Z;
     hash_commands := 0;
     hash_commands_completed := 0;
     rows_commands := 0 |}.

(** [TableJob::have_work_to_share()] *)
Definition job_have_work_to_share (tj : TableJob) : bool :=
  negb (PriorityQueue.empty (ranges_to_check tj)).

Definition set_ranges_to_check (q : ready_queue) (tj : TableJob) : TableJob :=
  {| table := table tj;
     table_id := table_id tj;
     subdividable := subdividable tj;
     ranges_to_retrieve := ranges_to_retrieve tj;
     ranges_to_check := q;
     notify_when_work_could_be_shared := notify_when_work_could_be_shared tj;
     time_started := time_started tj;
     time_finished := time_finished tj;
     hash_commands := hash_commands tj;
     hash_commands_completed := hash_commands_completed tj;
     rows_commands := rows_commands tj |}.

Definition set_notify_when_work_could_be_shared (b : bool) (tj : TableJob)
    : TableJob :=
  {| table := table tj;
     table_id := table_id tj;
     subdividable := subdividable tj;
     ranges_to_retrieve := ranges_to_retrieve tj;
     ranges_to_check := ranges_to_check tj;
     notify_when_work_could_be_shared := b;
     time_started := time_started tj;
     time_finished := time_finished tj;
     hash_commands := hash_commands tj;
     hash_commands_completed := hash_commands_completed tj;
     rows_commands := rows_commands tj |}.

(** The worker code's two mutations of the ready collection:
    [ranges_to_check.push(r)] and [ranges_to_check.pop()]. *)
Definition push_range_to_check (r : KeyRangeToCheck) (tj : TableJob) : TableJob :=
  set_ranges_to_check (PriorityQueue.push lower_priority r (ranges_to_check tj)) tj.

Definition pop_range_to_check (tj : TableJob) : TableJob :=
  set_ranges_to_check (PriorityQueue.pop (ranges_to_check tj)) tj.

(** ** The dispatcher *)

(** A [shared_ptr<TableJob>]: the address of the job object. *)
Definition job : Type := positive.

(** [SyncQueue<DatabaseClient>], with the two members it inherits from
    [AbortableBarrier] and reads or constructs here ([workers], [aborted]),
    and the store [jobs] of the [TableJob] objects its pointers refer to. *)
Record SyncQueue := mkSyncQueue {
  workers : N;
  aborted : bool;
  snapshot : string;
  sharing_work : bool;
  tables_to_process : list job;
  tables_being_processed : gset job;
  tables_with_work_to_share : gset job;
  jobs : gmap job TableJob
}.

Definition set_aborted (b : bool) (q : SyncQueue) : SyncQueue :=
  mkSyncQueue (workers q) b (snapshot q) (sharing_work q)
    (tables_to_process q) (tables_being_processed q)
    (tables_with_work_to_share q) (jobs q).

Definition set_sharing_work (b : bool) (q : SyncQueue) : SyncQueue :=
  mkSyncQueue (workers q) (aborted q) (snapshot q) b
    (tables_to_process q) (tables_being_processed q)
    (tables_with_work_to_share q) (jobs q).

Definition set_tables_to_process (l : list job) (q : SyncQueue) : SyncQueue :=
  mkSyncQueue (workers q) (aborted q) (snapshot q) (sharing_work q)
    l (tables_being_processed q)
    (tables_with_work_to_share q) (jobs q).

Definition set_tables_being_processed (s : gset job) (q : SyncQueue) : SyncQueue :=
  mkSyncQueue (workers q) (aborted q) (snapshot q) (sharing_work q)
    (tables_to_process q) s
    (tables_with_work_to_share q) (jobs q).

Definition set_tables_with_work_to_share (s : gset job) (q : SyncQueue) : SyncQueue :=
  mkSyncQueue (workers q) (aborted q) (snapshot q) (sharing_work q)
    (tables_to_process q) (tables_being_processed q)
    s (jobs q).

Definition set_jobs (m : gmap job TableJob) (q : SyncQueue) : SyncQueue :=
  mkSyncQueue (workers q) (aborted q) (snapshot q) (sharing_work q)
    (tables_to_process q) (tables_being_processed q)
    (tables_with_work_to_share q) m.

(** [SyncQueue(size_t workers)] *)
Definition SyncQueue_new (workers : N) : SyncQueue :=
  mkSyncQueue workers false EmptyString false [] ∅ ∅ ∅.

(** The two wake signals of the file: the dispatcher's [cond] and a job's
    [borrowed_task_completed].  An operation reports the [notify_all] calls
    it makes. *)
Inductive signal :=
  | notify_all_cond
  | notify_all_borrowed_task_completed (j : job).

(** How a call of [find_table_job] leaves the function: [throw
    aborted_error()], [return], or suspended in [cond.wait(lock)]. *)
Inductive outcome :=
  | Cancelled
  | Returned (table_job : option job)
  | Waiting.

#[global] Instance signal_eq_dec : EqDecision signal.
Proof. solve_decision. Defined.

#[global] Instance outcome_eq_dec : EqDecision outcome.
Proof. solve_decision. Defined.

(** [make_shared<TableJob>(from_table)]: a new object at an address no live
    object has. *)
Definition make_shared (from_table : Table) (q : SyncQueue) : SyncQueue * job :=
  let j := fresh (dom (jobs q)) in
  (set_jobs (<[j := TableJob_new from_table]> (jobs q)) q, j).

Definition enqueue_table (q : SyncQueue) (from_table : Table) : SyncQueue :=
  let '(q', j) := make_shared from_table q in
  set_tables_to_process (tables_to_process q' ++ [j]) q'.

Definition enqueue_tables_to_process (tables : list Table) (q : SyncQueue)
    : SyncQueue :=
  foldl enqueue_table q tables.

Definition finished (q : SyncQueue) : bool :=
  bool_decide (tables_to_process q = []) &&
  bool_decide (tables_being_processed q = ∅).

(** The order in which a range-for or an iterator walks a [std::set] of
    pointers: increasing address. *)
Definition in_order (s : gset job) : list job :=
  merge_sort Pos.le (elements s).

(** [table_job->have_work_to_share()] through the pointer. *)
Definition has_work (q : SyncQueue) (j : job) : bool :=
  match jobs q !! j with
  | Some tj => job_have_work_to_share tj
  | None => false
  end.

Definition start_sharing_work_in (q : SyncQueue) (table_job : job) : SyncQueue :=
  let q1 :=
    set_jobs (alter (set_notify_when_work_could_be_shared true) table_job (jobs q)) q in
  if has_work q1 table_job
  then set_tables_with_work_to_share ({[table_job]} ∪ tables_with_work_to_share q1) q1
  else q1.

Definition start_sharing_work (q : SyncQueue) : SyncQueue :=
  let q1 := set_sharing_work true q in
  let q2 := foldl start_sharing_work_in q1 (tables_to_process q1) in
  foldl start_sharing_work_in q2 (in_order (tables_being_processed q2)).

(** The [for] loop of [borrow_work] over the candidates not yet visited.
    [it = tables_with_work_to_share.erase(it)] is the loop's increment: it
    runs after a body that did not return. *)
Fixpoint scan_work_to_share (candidates : list job) (q : SyncQueue)
    : SyncQueue * option job :=
  match candidates with
  | [] => (q, None)
  | table_job :: rest =>
      if has_work q table_job then (q, Some table_job)
      else scan_work_to_share rest
             (set_tables_with_work_to_share
                (tables_with_work_to_share q ∖ {[table_job]}) q)
  end.

(** [borrow_work] from the head of its [while (true)] loop up to its
    [return] or its [cond.wait(lock)]. *)
Definition borrow_work (q : SyncQueue) : SyncQueue * outcome :=
  if finished q then (q, Returned None)
  else
    match scan_work_to_share (in_order (tables_with_work_to_share q)) q with
    | (q', Some table_job) => (q', Returned (Some table_job))
    | (q', None) => (q', Waiting)
    end.

Definition find_table_job (q : SyncQueue) : SyncQueue * outcome :=
  if aborted q then (q, Cancelled)
  else
    match tables_to_process q with
    | [] => borrow_work (if sharing_work q then q else start_sharing_work q)
    | table_job :: rest =>
        let q1 := set_tables_to_process rest q in
        (set_tables_being_processed ({[table_job]} ∪ tables_being_processed q1) q1,
         Returned (Some table_job))
    end.

Definition completed_table (table_job : job) (q : SyncQueue)
    : SyncQueue * list signal :=
  let q1 := set_tables_with_work_to_share
              (tables_with_work_to_share q ∖ {[table_job]}) q in
  let q2 := set_tables_being_processed
              (tables_being_processed q1 ∖ {[table_job]}) q1 in
  (q2, if finished q2 then [notify_all_cond] else []).

Definition have_work_to_share (table_job : job) (q : SyncQueue)
    : SyncQueue * list signal :=
  (set_tables_with_work_to_share ({[table_job]} ∪ tables_with_work_to_share q) q,
   [notify_all_cond]).

(** Modelled from the spec: [AbortableBarrier::abort] is defined in
    [abortable_barrier.h], which is not part of the sources at hand; the
    spec calls it a cooperative, idempotent cancellation whose first caller
    observes success and later callers do not, and [aborted] its
    cancellation flag. *)
Definition AbortableBarrier_abort (q : SyncQueue) : SyncQueue * bool :=
  if aborted q then (q, false) else (set_aborted true q, true).

(** [SyncQueue::abort]: the barrier's abort, then one [notify_all] on the
    [borrowed_task_completed] of every job being processed. *)
Definition abort (q : SyncQueue) : SyncQueue * bool * list signal :=
  let '(q', result) := AbortableBarrier_abort q in
  (q', result,
   notify_all_borrowed_task_completed <$> in_order (tables_being_processed q')).

(** ** Runs of the dispatcher

    What the worker threads do to the dispatcher and to the jobs, one call
    (or one wake-up of a suspended call) at a time, in the order in which
    the global lock serialises them.

    - [OpEnqueue], [OpClaim], [OpComplete], [OpOffer], [OpAbort]: the calls
      of [enqueue_tables_to_process], [find_table_job], [completed_table],
      [have_work_to_share] and [abort].
    - [OpWake]: a borrower suspended in [cond.wait] is woken (a
      [notify_all], or a spurious wake-up) and runs [borrow_work] from the
      head of its loop.
    - [OpStartSharing]: [start_sharing_work] on its own; [OpClaim] also
      runs it, the way [find_table_job] does.
    - [OpPush], [OpPop]: a worker adds a ready range to a job, or takes the
      top one off. *)
Inductive op :=
  | OpEnqueue (tables : list Table)
  | OpClaim
  | OpWake
  | OpComplete (table_job : job)
  | OpOffer (table_job : job)
  | OpStartSharing
  | OpAbort
  | OpPush (table_job : job) (r : KeyRangeToCheck)
  | OpPop (table_job : job).

Definition step (q : SyncQueue) (o : op) : SyncQueue :=
  match o with
  | OpEnqueue tables => enqueue_tables_to_process tables q
  | OpClaim => (find_table_job q).1
  | OpWake => (borrow_work q).1
  | OpComplete j => (completed_table j q).1
  | OpOffer j => (have_work_to_share j q).1
  | OpStartSharing => start_sharing_work q
  | OpAbort => (abort q).1.1
  | OpPush j r => set_jobs (alter (push_range_to_check r) j (jobs q)) q
  | OpPop j => set_jobs (alter pop_range_to_check j (jobs q)) q
  end.

Definition run (ops : list op) (q : SyncQueue) : SyncQueue := foldl step q ops.

(** The caller's side of the interface: work is offered for a job that is
    being processed.  [start_sharing_work] is private; its one call, in
    [find_table_job], is made when the pending queue is empty. *)
Definition allowed (q : SyncQueue) (o : op) : Prop :=
  match o with
  | OpOffer j => j ∈ tables_being_processed q
  | OpStartSharing => tables_to_process q = []
  | _ => True
  end.

Fixpoint well_used (ops : list op) (q : SyncQueue) : Prop :=
  match ops with
  | [] => True
  | o :: ops' => allowed q o ∧ well_used ops' (step q o)
  end.

(** [n] successive calls of [find_table_job]: the outcomes, in call order. *)
Fixpoint claims (n : nat) (q : SyncQueue) : SyncQueue * list outcome :=
  match n with
  | O => (q, [])
  | S n' =>
      let '(q1, r) := find_table_job q in
      let '(q2, rs) := claims n' q1 in
      (q2, r :: rs)
  end.

(** ** Sample data: two tables and two ranges *)

Definition T1 : Table := mkTable "t1" [0] true.
Definition T2 : Table := mkTable "t2" [0] false.
Definition R5 : KeyRangeToCheck := KeyRangeToCheck_new [] ["9"] 10 10 5.
Definition R7 : KeyRangeToCheck := KeyRangeToCheck_new ["9"] [] UNKNOWN_ROW_COUNT 10 7.

(** One table, claimed by a first worker; a second worker then claims,
    finds the pending queue empty, and is suspended in [borrow_work]. *)
Definition one_table_claimed : SyncQueue :=
  run [OpEnqueue [T1]; OpClaim] (SyncQueue_new 2).

Definition second_claim : SyncQueue * outcome :=
  find_table_job one_table_claimed.

(** The same run, aborted while the second worker is suspended. *)
Definition aborted_while_suspended : SyncQueue * bool * list signal :=
  abort second_claim.1.

(** Three tables being processed and advertised: the first has no ready
    range left, the other two have. *)
Definition three_tables_shared : SyncQueue :=
  run [OpEnqueue [T1; T2; T1]; OpClaim; OpClaim; OpClaim;
       OpOffer 1%positive;
       OpPush 2%positive R5; OpPush 2%positive R7; OpOffer 2%positive;
       OpPush 3%positive R7; OpOffer 3%positive]
    (SyncQueue_new 4).

(** Two tables being processed, one with ready ranges, before any worker
    has run out of whole tables. *)
Definition ready_before_sharing : SyncQueue :=
  run [OpEnqueue [T1; T2]; OpClaim; OpClaim;
       OpPush 2%positive R5; OpPush 2%positive R7]
    (SyncQueue_new 3).

(** The second job of that run: two ranges pushed, priority 5 then 7. *)
Definition two_ranges_ready : TableJob :=
  push_range_to_check R7 (push_range_to_check R5 (TableJob_new T2)).

(** A table that is completed and then offered again. *)
Definition offered_after_completion : list op :=
  [OpEnqueue [T1]; OpClaim; OpComplete 1%positive; OpOffer 1%positive].

(** Invariants of the store and of the collections, used below. *)

(** Every ready collection in the store has its top at the head. *)
Definition ranges_ordered (q : SyncQueue) : Prop :=
  ∀ j tj, jobs q !! j = Some tj →
    PriorityQueue.ordered lower_priority (ranges_to_check tj).

(** Pointers refer to live objects, and no job is pending twice or pending
    and being processed. *)
Record collections_ok (q : SyncQueue) : Prop := {
  pending_nodup : NoDup (tables_to_process q);
  pending_live : ∀ j, j ∈ tables_to_process q → j ∈ dom (jobs q);
  processed_live : tables_being_processed q ⊆ dom (jobs q);
  pending_not_processed :
    ∀ j, j ∈ tables_to_process q → j ∉ tables_being_processed q
}.

(** The suspended run, once the owner of the table has a ready range. *)
Definition suspended_and_ready : SyncQueue :=
  step second_claim.1 (OpPush 1%positive R5).

(** The owners report their tables complete, one [completed_table] per
    job, in the given order. *)
Definition complete_all (table_jobs : list job) (q : SyncQueue) : SyncQueue :=
  foldl (λ q table_job, (completed_table table_job q).1) q table_jobs.

(** Only jobs being processed advertise work. *)
Definition share_processed (q : SyncQueue) : Prop :=
  tables_with_work_to_share q ⊆ tables_being_processed q.

(** Projections of the setters, and closed decidable goals. *)
Ltac fields :=
  unfold set_aborted, set_sharing_work, set_tables_to_process,
    set_tables_being_processed, set_tables_with_work_to_share, set_jobs;
  cbn [workers aborted snapshot sharing_work tables_to_process
       tables_being_processed tables_with_work_to_share jobs fst snd].

Ltac by_evaluation := apply (bool_decide_unpack _); vm_compute; exact I.

(** * Properties *)

(** ** The ready collection *)

Section priority_queue_facts.
Import PriorityQueue.

Lemma elem_of_push {T} (comp : T → T → bool) x y q :
  y ∈ push comp x q ↔ y = x ∨ y ∈ q.
Proof.
  induction q as [|z q IH]; simpl.
  - rewrite list_elem_of_singleton, elem_of_nil. tauto.
  - destruct (comp z x); rewrite !elem_of_cons; [tauto|].
    rewrite IH. tauto.
Qed.

Lemma lower_priority_false a b :
  lower_priority a b = false ↔ priority b ≤ priority a.
Proof. unfold lower_priority. rewrite N.ltb_ge. done. Qed.

Lemma ordered_empty_queue : ordered lower_priority empty_queue.
Proof. constructor. Qed.

Lemma ordered_push r q :
  ordered lower_priority q → ordered lower_priority (push lower_priority r q).
Proof.
  unfold ordered. induction q as [|y q IH]; simpl; intros Hq.
  - repeat constructor.
  - apply StronglySorted_cons in Hq as [Hy Hq].
    destruct (lower_priority y r) eqn:Hyr.
    + apply StronglySorted_cons. split.
      * apply N.ltb_lt in Hyr. constructor.
        { apply lower_priority_false. lia. }
        eapply Forall_impl; [exact Hy|]. intros b Hb.
        apply lower_priority_false in Hb. apply lower_priority_false. lia.
      * apply StronglySorted_cons. done.
    + apply StronglySorted_cons. split; [|auto].
      apply Forall_forall. intros b [->|Hb]%elem_of_push; [done|].
      rewrite Forall_forall in Hy. auto.
Qed.

Lemma ordered_pop q :
  ordered lower_priority q → ordered lower_priority (pop q).
Proof.
  unfold ordered. destruct q as [|y q]; simpl; [done|].
  intros [_ ?]%StronglySorted_cons. done.
Qed.

Lemma ordered_play acts :
  ordered lower_priority (play lower_priority acts).
Proof.
  unfold play. induction acts as [|a acts IH] using rev_ind; simpl.
  - apply ordered_empty_queue.
  - rewrite foldl_app. simpl. destruct a; simpl.
    + by apply ordered_push.
    + by apply ordered_pop.
Qed.

Lemma ordered_top q r x :
  ordered lower_priority q → top q = Some r → x ∈ q →
  priority x ≤ priority r.
Proof.
  unfold ordered, top. destruct q as [|y q]; simpl; [done|].
  intros [Hy _]%StronglySorted_cons [= ->] [->|Hx]%elem_of_cons; [done|].
  rewrite Forall_forall in Hy. by apply lower_priority_false, Hy.
Qed.
End priority_queue_facts.

(** ** Iteration order of a set of jobs *)

Lemma elem_of_in_order (s : gset job) x : x ∈ in_order s ↔ x ∈ s.
Proof. unfold in_order. rewrite merge_sort_Permutation. apply elem_of_elements. Qed.

Lemma NoDup_in_order (s : gset job) : NoDup (in_order s).
Proof. unfold in_order. rewrite merge_sort_Permutation. apply NoDup_elements. Qed.

Lemma in_order_sorted (s : gset job) : StronglySorted Pos.le (in_order s).
Proof. unfold in_order. apply StronglySorted_merge_sort; apply _. Qed.

(** In a split of the visiting order at [j], what comes before [j] is what
    is below [j]. *)
Lemma in_order_split (s : gset job) pre j post x :
  in_order s = pre ++ j :: post →
  (x ∈ pre ↔ x ∈ s ∧ (x < j)%positive) ∧
  (x ∈ j :: post ↔ x ∈ s ∧ (j ≤ x)%positive).
Proof.
  intros Heq.
  pose proof (in_order_sorted s) as Hs. pose proof (NoDup_in_order s) as Hn.
  pose proof (elem_of_in_order s x) as Hx.
  rewrite Heq in Hs, Hn, Hx.
  apply StronglySorted_app in Hs as (Hpp & _ & Hpost).
  apply StronglySorted_cons in Hpost as [Hj _].
  apply NoDup_app in Hn as (_ & Hdisj & _).
  rewrite elem_of_app in Hx. rewrite Forall_forall in Hj.
  assert (x ∈ pre → (x < j)%positive) as Hlt.
  { intros Hin. specialize (Hpp x j Hin (list_elem_of_here _ _)).
    assert (x ≠ j) by (intros ->; eapply Hdisj; [done|left]). lia. }
  assert (x ∈ j :: post → (j ≤ x)%positive) as Hge.
  { intros [->|Hin]%elem_of_cons; [lia|auto]. }
  split; split.
  - intros Hin. split; [tauto|auto].
  - intros [Hin Hl]. destruct (proj2 Hx Hin) as [|Hin']; [done|].
    apply Hge in Hin'. lia.
  - intros Hin. split; [tauto|auto].
  - intros [Hin Hl]. destruct (proj2 Hx Hin) as [Hin'|]; [|done].
    apply Hlt in Hin'. lia.
Qed.

(** ** Field-by-field effect of the operations *)

Lemma set_share_id q :
  set_tables_with_work_to_share (tables_with_work_to_share q) q = q.
Proof. by destruct q. Qed.

Lemma has_work_set_share s q x :
  has_work (set_tables_with_work_to_share s q) x = has_work q x.
Proof. done. Qed.

Lemma has_work_alter_notify b j q x :
  has_work (set_jobs (alter (set_notify_when_work_could_be_shared b) j (jobs q)) q) x
  = has_work q x.
Proof.
  unfold has_work. fields. rewrite lookup_alter.
  case_decide; subst; destruct (jobs q !! x); done.
Qed.

(** The scan visits a prefix of the candidates: everything before the point
    where it stops has no work and is erased; it stops at the first
    candidate with work, or at the end. *)
Lemma scan_work_to_share_spec candidates q :
  ∃ pre post,
    candidates = pre ++ post ∧
    Forall (λ j, has_work q j = false) pre ∧
    (scan_work_to_share candidates q).1 =
      set_tables_with_work_to_share
        (tables_with_work_to_share q ∖ list_to_set pre) q ∧
    match (scan_work_to_share candidates q).2 with
    | Some j => has_work q j = true ∧ ∃ post', post = j :: post'
    | None => post = []
    end.
Proof.
  revert q. induction candidates as [|j rest IH]; intros q; simpl.
  - exists [], []. split_and!; [done|constructor| |done].
    cbn [fst list_to_set foldr]. rewrite difference_empty_L.
    by rewrite set_share_id.
  - destruct (has_work q j) eqn:Hj.
    + exists [], (j :: rest). split_and!; [done|constructor| |simpl; eauto].
      cbn [fst list_to_set foldr]. rewrite difference_empty_L.
      by rewrite set_share_id.
    + destruct (IH (set_tables_with_work_to_share
                      (tables_with_work_to_share q ∖ {[j]}) q))
        as (pre & post & -> & Hpre & Hq & Hr).
      exists (j :: pre), post. split_and!; [done| | |done].
      * constructor; [done|]. done.
      * rewrite Hq. fields. f_equal. set_solver.
Qed.

Lemma start_sharing_work_in_fold l q :
  let q' := foldl start_sharing_work_in q l in
  workers q' = workers q ∧ aborted q' = aborted q ∧
  sharing_work q' = sharing_work q ∧
  tables_to_process q' = tables_to_process q ∧
  tables_being_processed q' = tables_being_processed q ∧
  (∀ x, has_work q' x = has_work q x) ∧
  (∀ x, jobs q' !! x =
        if decide (x ∈ l)
        then set_notify_when_work_could_be_shared true <$> jobs q !! x
        else jobs q !! x) ∧
  (∀ x, x ∈ tables_with_work_to_share q' ↔
        x ∈ tables_with_work_to_share q ∨ (x ∈ l ∧ has_work q x = true)).
Proof.
  revert q. induction l as [|j l IH]; intros q; simpl.
  - split_and!; try done. set_solver.
  - set (q1 := start_sharing_work_in q j).
    destruct (IH q1) as (Hw & Ha & Hs & Hp & Hb & Hh & Hj & Hsh).
    assert (∀ x, has_work q1 x = has_work q x) as Hh1.
    { intros x. unfold q1, start_sharing_work_in.
      rewrite !has_work_alter_notify.
      destruct (has_work q j); [rewrite has_work_set_share|];
        apply has_work_alter_notify. }
    assert (jobs q1 = alter (set_notify_when_work_could_be_shared true) j (jobs q))
      as Hj1.
    { unfold q1, start_sharing_work_in. rewrite has_work_alter_notify.
      by destruct (has_work q j). }
    assert (∀ x, x ∈ tables_with_work_to_share q1 ↔
                 x ∈ tables_with_work_to_share q ∨ (x = j ∧ has_work q x = true))
      as Hsh1.
    { intros x. unfold q1, start_sharing_work_in. rewrite has_work_alter_notify.
      destruct (has_work q j) eqn:Hwj; fields; [set_solver|].
      split; [auto|]. intros [?|[-> ?]]; [done|congruence]. }
    rewrite Hw, Ha, Hs, Hp, Hb.
    split_and!.
    1-5: unfold q1, start_sharing_work_in; rewrite has_work_alter_notify;
      by destruct (has_work q j).
    + intros x. by rewrite Hh.
    + intros x. rewrite Hj, Hj1, lookup_alter.
      destruct (decide (j = x)) as [->|Hne].
      * rewrite (decide_True (P := x ∈ x :: l)) by left.
        destruct (decide (x ∈ l)); destruct (jobs q !! x); done.
      * destruct (decide (x ∈ l)).
        -- by rewrite decide_True by (by right).
        -- by rewrite decide_False by (intros [?|?]%elem_of_cons; done).
    + intros x. rewrite Hsh, Hsh1, Hh1, elem_of_cons. tauto.
Qed.

Lemma set_notify_twice o :
  set_notify_when_work_could_be_shared true <$>
    (set_notify_when_work_could_be_shared true <$> o)
  = set_notify_when_work_could_be_shared true <$> (o : option TableJob).
Proof. by destruct o. Qed.

Lemma start_sharing_work_spec q :
  let q' := start_sharing_work q in
  workers q' = workers q ∧ aborted q' = aborted q ∧
  sharing_work q' = true ∧
  tables_to_process q' = tables_to_process q ∧
  tables_being_processed q' = tables_being_processed q ∧
  (∀ x, has_work q' x = has_work q x) ∧
  (∀ x, jobs q' !! x =
        if decide (x ∈ tables_to_process q ∨ x ∈ tables_being_processed q)
        then set_notify_when_work_could_be_shared true <$> jobs q !! x
        else jobs q !! x) ∧
  (∀ x, x ∈ tables_with_work_to_share q' ↔
        x ∈ tables_with_work_to_share q ∨
        ((x ∈ tables_to_process q ∨ x ∈ tables_being_processed q) ∧
         has_work q x = true)).
Proof.
  unfold start_sharing_work.
  set (q1 := set_sharing_work true q).
  set (q2 := foldl start_sharing_work_in q1 (tables_to_process q1)).
  destruct (start_sharing_work_in_fold (tables_to_process q1) q1)
    as (Hw2 & Ha2 & Hs2 & Hp2 & Hb2 & Hh2 & Hj2 & Hsh2).
  destruct (start_sharing_work_in_fold (in_order (tables_being_processed q2)) q2)
    as (Hw & Ha & Hs & Hp & Hb & Hh & Hj & Hsh).
  fold q2 in Hw2, Ha2, Hs2, Hp2, Hb2, Hh2, Hj2, Hsh2.
  cbv zeta in *.
  split_and!.
  - by rewrite Hw, Hw2.
  - by rewrite Ha, Ha2.
  - by rewrite Hs, Hs2.
  - by rewrite Hp, Hp2.
  - by rewrite Hb, Hb2.
  - intros x. by rewrite Hh, Hh2.
  - intros x. rewrite Hj, Hj2, Hb2.
    change (tables_to_process q1) with (tables_to_process q).
    change (tables_being_processed q1) with (tables_being_processed q).
    change (jobs q1) with (jobs q).
    destruct (decide (x ∈ in_order (tables_being_processed q))) as [Hin|Hin];
      rewrite elem_of_in_order in Hin;
      destruct (decide (x ∈ tables_to_process q)).
    + rewrite decide_True by tauto. apply set_notify_twice.
    + by rewrite decide_True by tauto.
    + by rewrite decide_True by tauto.
    + by rewrite decide_False by tauto.
  - intros x. rewrite Hsh, Hsh2, Hh2, Hb2, elem_of_in_order.
    change (tables_to_process q1) with (tables_to_process q).
    change (tables_being_processed q1) with (tables_being_processed q).
    change (tables_with_work_to_share q1) with (tables_with_work_to_share q).
    change (has_work q1 x) with (has_work q x).
    tauto.
Qed.

(** The scan changes nothing but the set of jobs with work to share, and
    only shrinks that. *)
Lemma scan_work_to_share_frame candidates q :
  let q' := (scan_work_to_share candidates q).1 in
  q' = set_tables_with_work_to_share (tables_with_work_to_share q') q ∧
  tables_with_work_to_share q' ⊆ tables_with_work_to_share q.
Proof.
  destruct (scan_work_to_share_spec candidates q) as (pre & post & _ & _ & Hq & _).
  cbv zeta. rewrite Hq. fields. split; [done|set_solver].
Qed.

Lemma finished_spec q :
  finished q = true ↔
  tables_to_process q = [] ∧ tables_being_processed q = ∅.
Proof.
  unfold finished. rewrite andb_true_iff, !bool_decide_eq_true. done.
Qed.

Lemma borrow_work_frame q :
  let q' := (borrow_work q).1 in
  q' = set_tables_with_work_to_share (tables_with_work_to_share q') q ∧
  tables_with_work_to_share q' ⊆ tables_with_work_to_share q.
Proof.
  unfold borrow_work. destruct (finished q).
  - cbn [fst]. by rewrite set_share_id.
  - pose proof (scan_work_to_share_frame
                  (in_order (tables_with_work_to_share q)) q) as H.
    destruct (scan_work_to_share _ q) as [q' [j|]]; exact H.
Qed.

(** A scan returns a job or runs off the end of the set; [borrow_work]
    returns or waits, and has no [throw]. *)
Lemma borrow_work_not_cancelled q : (borrow_work q).2 ≠ Cancelled.
Proof.
  unfold borrow_work. destruct (finished q); [done|].
  by destruct (scan_work_to_share _ q) as [q' [j|]].
Qed.

Lemma borrow_work_no_work q :
  (borrow_work q).2 = Returned None ↔ finished q = true.
Proof.
  unfold borrow_work. destruct (finished q); [done|].
  by destruct (scan_work_to_share _ q) as [q' [j|]].
Qed.

Lemma find_table_job_pending q j rest :
  aborted q = false → tables_to_process q = j :: rest →
  find_table_job q =
    (set_tables_being_processed ({[j]} ∪ tables_being_processed q)
       (set_tables_to_process rest q),
     Returned (Some j)).
Proof. unfold find_table_job. by intros -> ->. Qed.

Lemma find_table_job_borrow q :
  aborted q = false → tables_to_process q = [] →
  find_table_job q =
    borrow_work (if sharing_work q then q else start_sharing_work q).
Proof. unfold find_table_job. by intros -> ->. Qed.

(** ** Cancellation at the head of a claim *)

(** C9: when the run has been aborted, [find_table_job] throws
    [aborted_error] at entry, whatever the pending queue holds; it returns
    no job and leaves the dispatcher as it was. *)
Theorem C9_claim_after_abort_is_cancelled (q : SyncQueue) :
  aborted q = true → find_table_job q = (q, Cancelled).
Proof. unfold find_table_job. by intros ->. Qed.

(** C10: when [find_table_job] throws [aborted_error], the dispatcher is
    unchanged: pending queue, set being processed, set with work to share,
    sharing flag and every other member are as before the call. *)
Theorem C10_cancelled_claim_changes_nothing (q : SyncQueue) :
  (find_table_job q).2 = Cancelled → (find_table_job q).1 = q.
Proof.
  unfold find_table_job. destruct (aborted q); [done|].
  destruct (tables_to_process q); [|done].
  intros H. by apply borrow_work_not_cancelled in H.
Qed.

(** ** The end of the run *)

(** C8: a claim made on a run that is not aborted returns the null job
    exactly when the pending queue and the set being processed are both
    empty; the same holds each time a suspended borrower is woken and
    re-enters the loop of [borrow_work]. *)
Theorem C8_no_work_iff_finished (q : SyncQueue) :
  aborted q = false →
  ((find_table_job q).2 = Returned None ↔
     tables_to_process q = [] ∧ tables_being_processed q = ∅) ∧
  ((borrow_work q).2 = Returned None ↔
     tables_to_process q = [] ∧ tables_being_processed q = ∅).
Proof.
  intros Ha. rewrite <-finished_spec. split; [|apply borrow_work_no_work].
  unfold find_table_job. rewrite Ha.
  destruct (tables_to_process q) as [|j rest] eqn:Hp.
  - rewrite borrow_work_no_work. destruct (sharing_work q); [done|].
    destruct (start_sharing_work_spec q) as (_ & _ & _ & Hp' & Hb' & _).
    unfold finished. by rewrite Hp', Hb'.
  - cbn [snd]. unfold finished. rewrite Hp. done.
Qed.

(** ** Borrowing *)

(** One pass of [borrow_work] on a run that is not finished. *)
Lemma borrow_work_pass (q : SyncQueue) :
  finished q = false →
  match borrow_work q with
  | (q', Returned (Some j)) =>
      j ∈ tables_with_work_to_share q ∧ has_work q j = true ∧
      (∀ x, x ∈ tables_with_work_to_share q → (x < j)%positive →
            has_work q x = false) ∧
      (∀ x, x ∈ tables_with_work_to_share q' ↔
            x ∈ tables_with_work_to_share q ∧ (j ≤ x)%positive) ∧
      q' = set_tables_with_work_to_share (tables_with_work_to_share q') q
  | (q', Waiting) =>
      tables_with_work_to_share q' = ∅ ∧
      (∀ x, x ∈ tables_with_work_to_share q → has_work q x = false) ∧
      q' = set_tables_with_work_to_share ∅ q
  | _ => False
  end.
Proof.
  intros Hfin. unfold borrow_work. rewrite Hfin.
  destruct (scan_work_to_share_spec (in_order (tables_with_work_to_share q)) q)
    as (pre & post & Heq & Hpre & Hq & Hr).
  destruct (scan_work_to_share _ q) as [q' [j|]]; cbn [fst snd] in *.
  - destruct Hr as [Hj [post' ->]].
    rewrite Forall_forall in Hpre.
    assert (∀ x, x ∈ tables_with_work_to_share q' ↔
                 x ∈ tables_with_work_to_share q ∧ (j ≤ x)%positive) as Hsh.
    { intros x. destruct (in_order_split _ _ _ _ x Heq) as [Hlo _].
      rewrite Hq. fields. rewrite elem_of_difference, elem_of_list_to_set, Hlo.
      split.
      - intros [? Hn]. split; [done|].
        destruct (decide (x < j)%positive); [by destruct Hn|lia].
      - intros [? ?]. split; [done|]. intros [_ ?]. lia. }
    split_and!.
    + destruct (in_order_split _ _ _ _ j Heq) as [_ Hhi].
      apply Hhi. left.
    + done.
    + intros x Hx Hlt. apply Hpre.
      destruct (in_order_split _ _ _ _ x Heq) as [Hlo _]. by apply Hlo.
    + done.
    + rewrite Hq. by fields.
  - subst post. rewrite app_nil_r in Heq. subst pre.
    rewrite Forall_forall in Hpre.
    assert (tables_with_work_to_share q ∖
              list_to_set (in_order (tables_with_work_to_share q)) = ∅) as He.
    { apply set_eq. intros x.
      rewrite elem_of_difference, elem_of_list_to_set, elem_of_in_order.
      set_solver. }
    rewrite He in Hq. subst q'. split_and!; [done| |done].
    intros x Hx. by apply Hpre, elem_of_in_order.
Qed.

(** C2 (as the code has it): in one pass of the scan of [borrow_work] on a
    run that is not finished, the job returned is the first candidate, in
    the visiting order of the set, whose ready collection is non-empty when
    it is visited; the candidates visited before it, which have no work,
    are erased from the set with work to share; the returned job and the
    candidates after it stay in the set.  A pass that finds no work erases
    every candidate and waits.  Nothing but that set changes. *)
Theorem C2_scan_erases_idle_returns_first (q : SyncQueue) :
  finished q = false →
  match borrow_work q with
  | (q', Returned (Some j)) =>
      j ∈ tables_with_work_to_share q ∧ has_work q j = true ∧
      (∀ x, x ∈ tables_with_work_to_share q → (x < j)%positive →
            has_work q x = false) ∧
      (∀ x, x ∈ tables_with_work_to_share q' ↔
            x ∈ tables_with_work_to_share q ∧ (j ≤ x)%positive) ∧
      q' = set_tables_with_work_to_share (tables_with_work_to_share q') q
  | (q', Waiting) =>
      tables_with_work_to_share q' = ∅ ∧
      (∀ x, x ∈ tables_with_work_to_share q → has_work q x = false) ∧
      q' = set_tables_with_work_to_share ∅ q
  | _ => False
  end.
Proof. apply borrow_work_pass. Qed.

(** ** Enqueueing and claiming whole tables *)

Lemma enqueue_tables_to_process_spec tables q :
  let q' := enqueue_tables_to_process tables q in
  ∃ js,
    tables_to_process q' = tables_to_process q ++ js ∧
    length js = length tables ∧
    NoDup js ∧
    Forall (λ j, j ∉ dom (jobs q)) js ∧
    Forall2 (λ j t, jobs q' !! j = Some (TableJob_new t)) js tables ∧
    (∀ x, x ∈ dom (jobs q) → jobs q' !! x = jobs q !! x) ∧
    dom (jobs q') = dom (jobs q) ∪ list_to_set js ∧
    workers q' = workers q ∧ aborted q' = aborted q ∧
    sharing_work q' = sharing_work q ∧
    tables_being_processed q' = tables_being_processed q ∧
    tables_with_work_to_share q' = tables_with_work_to_share q.
Proof.
  unfold enqueue_tables_to_process. revert q.
  induction tables as [|t tables IH]; intros q; cbn [foldl].
  - exists []. rewrite app_nil_r. split_and!; try done; try constructor.
    set_solver.
  - set (j := fresh (dom (jobs q))).
    set (q1 := enqueue_table q t).
    assert (j ∉ dom (jobs q)) as Hfresh by apply is_fresh.
    assert (jobs q1 = <[j := TableJob_new t]> (jobs q)) as Hj1 by done.
    assert (tables_to_process q1 = tables_to_process q ++ [j]) as Hp1 by done.
    destruct (IH q1)
      as (js & Hp & Hlen & Hnd & Hfr & Hnew & Hold & Hdom & Hw & Ha & Hs & Hb & Hsh).
    rewrite Hj1, dom_insert_L in Hfr, Hold, Hdom.
    rewrite Forall_forall in Hfr.
    exists (j :: js). split_and!.
    + rewrite Hp, Hp1, <-app_assoc. done.
    + simpl. by rewrite Hlen.
    + constructor; [|done]. intros Hin. apply Hfr in Hin. set_solver.
    + constructor; [done|]. apply Forall_forall. intros x Hx.
      apply Hfr in Hx. set_solver.
    + constructor; [|done]. rewrite Hold by set_solver.
      apply lookup_insert_eq.
    + intros x Hx. rewrite Hold by set_solver.
      apply lookup_insert_ne. intros ->. done.
    + rewrite Hdom. set_solver.
    + by rewrite Hw.
    + by rewrite Ha.
    + by rewrite Hs.
    + by rewrite Hb.
    + by rewrite Hsh.
Qed.

Lemma claims_of_pending n q :
  aborted q = false → (n ≤ length (tables_to_process q))%nat →
  (claims n q).2 = (λ j, Returned (Some j)) <$> take n (tables_to_process q) ∧
  tables_to_process (claims n q).1 = drop n (tables_to_process q) ∧
  tables_being_processed (claims n q).1 =
    list_to_set (take n (tables_to_process q)) ∪ tables_being_processed q.
Proof.
  revert q. induction n as [|n IH]; intros q Ha Hn; cbn [claims].
  - cbn [fst snd take drop fmap list_fmap]. split_and!; [done..|set_solver].
  - destruct (tables_to_process q) as [|j rest] eqn:Hp; [simpl in Hn; lia|].
    rewrite (find_table_job_pending q j rest Ha Hp).
    set (q1 := set_tables_being_processed _ _).
    destruct (IH q1) as (Hr & Hp' & Hb'); [done|simpl in Hn |- *; lia|].
    destruct (claims n q1) as [q2 rs]. cbn [fst snd] in *.
    change (tables_to_process q1) with rest in *.
    change (tables_being_processed q1)
      with ({[j]} ∪ tables_being_processed q) in *.
    split_and!.
    + by rewrite Hr.
    + done.
    + rewrite Hb'. cbn [take list_to_set foldr]. set_solver.
Qed.

(** While claims pop the pending queue they touch no job. *)
Lemma claims_of_pending_store n q :
  aborted q = false → (n ≤ length (tables_to_process q))%nat →
  jobs (claims n q).1 = jobs q.
Proof.
  revert q. induction n as [|n IH]; intros q Ha Hn; cbn [claims]; [done|].
  destruct (tables_to_process q) as [|j rest] eqn:Hp; [simpl in Hn; lia|].
  rewrite (find_table_job_pending q j rest Ha Hp).
  set (q1 := set_tables_being_processed _ _).
  specialize (IH q1 Ha). destruct (claims n q1) as [q2 rs]. cbn [fst] in *.
  rewrite IH; [done|]. simpl in Hn. change (tables_to_process q1) with rest. lia.
Qed.

(** C7: [enqueue_tables_to_process] makes one new [TableJob] per table,
    the i-th one for the i-th table of the input (its [table] is that
    table, its cached members are computed from it, its queues are empty
    and its publish flag is clear), and appends them to the back of the
    pending queue in the order of the input; while the pending queue is
    non-empty, each [find_table_job] removes its front job, inserts it into
    the set being processed, and returns it, so that successive claims
    return the pending jobs in queue order, each still the job of its
    table. *)
Theorem C7_enqueue_appends_claims_pop_front (tables : list Table) (q : SyncQueue) :
  aborted q = false →
  let q1 := enqueue_tables_to_process tables q in
  ∃ js,
    tables_to_process q1 = tables_to_process q ++ js ∧
    length js = length tables ∧
    NoDup js ∧
    Forall2 (λ j t, (j ∉ dom (jobs q)) ∧ jobs q1 !! j = Some (TableJob_new t))
      js tables ∧
    Forall2 (λ j t, ∃ tj, jobs q1 !! j = Some tj ∧
                          table tj = t ∧
                          table_id tj = id_from_name t ∧
                          subdividable tj = primary_key_subdividable t ∧
                          ranges_to_retrieve tj = [] ∧
                          ranges_to_check tj = [] ∧
                          notify_when_work_could_be_shared tj = false ∧
                          job_have_work_to_share tj = false)
      js tables ∧
    (∀ j rest, tables_to_process q1 = j :: rest →
       find_table_job q1 =
         (set_tables_being_processed ({[j]} ∪ tables_being_processed q1)
            (set_tables_to_process rest q1),
          Returned (Some j))) ∧
    (∀ n, (n ≤ length (tables_to_process q1))%nat →
       (claims n q1).2 =
         (λ j, Returned (Some j)) <$> take n (tables_to_process q1) ∧
       tables_to_process (claims n q1).1 = drop n (tables_to_process q1) ∧
       tables_being_processed (claims n q1).1 =
         list_to_set (take n (tables_to_process q1)) ∪ tables_being_processed q ∧
       jobs (claims n q1).1 = jobs q1).
Proof.
  intros Ha.
  destruct (enqueue_tables_to_process_spec tables q)
    as (js & Hp & Hlen & Hnd & Hfr & Hnew & _ & _ & _ & Ha1 & _ & Hb & _).
  cbv zeta in *. rewrite Ha in Ha1.
  exists js. split_and!; try done.
  - clear -Hfr Hnew. revert Hfr Hnew.
    generalize (jobs (enqueue_tables_to_process tables q)). intros m Hfr Hnew.
    induction Hnew; [constructor|].
    apply Forall_cons in Hfr as [? ?]. constructor; auto.
  - eapply Forall2_impl; [exact Hnew|]. intros j t Hj.
    exists (TableJob_new t). split_and!; done.
  - intros j rest Hq. by apply find_table_job_pending.
  - intros n Hn.
    destruct (claims_of_pending n _ Ha1 Hn) as (? & ? & ?).
    split_and!; [done|done|by rewrite <-Hb|by apply claims_of_pending_store].
Qed.

(** ** Entering sharing mode *)

Lemma run_snoc ops o q : run (ops ++ [o]) q = step (run ops q) o.
Proof. unfold run. apply foldl_snoc. Qed.

(** No operation clears the sharing flag. *)
Lemma sharing_work_step q o :
  sharing_work q = true → sharing_work (step q o) = true.
Proof.
  intros Hs.
  assert (∀ q0, sharing_work (borrow_work q0).1 = sharing_work q0) as Hborrow.
  { intros q0. destruct (borrow_work_frame q0) as [Hq _]. cbv zeta in Hq.
    by rewrite Hq. }
  destruct o as [tables| | |j|j| | |j r|j]; cbn [step]; try done.
  - destruct (enqueue_tables_to_process_spec tables q)
      as (js & _ & _ & _ & _ & _ & _ & _ & _ & _ & Hsw & _).
    cbv zeta in Hsw. by rewrite Hsw.
  - unfold find_table_job. destruct (aborted q); [done|].
    destruct (tables_to_process q); [|done].
    by rewrite Hs, Hborrow.
  - by rewrite Hborrow.
  - by destruct (start_sharing_work_spec q) as (_ & _ & ? & _).
  - unfold abort, AbortableBarrier_abort. by destruct (aborted q).
Qed.

Lemma sharing_work_run ops q :
  sharing_work q = true → sharing_work (run ops q) = true.
Proof.
  induction ops as [|o ops IH] using rev_ind; [done|].
  intros Hs. rewrite run_snoc. by apply sharing_work_step, IH.
Qed.

(** C5: [start_sharing_work] sets the sharing flag, sets
    [notify_when_work_could_be_shared] to true in every job of the pending
    queue and of the set being processed (and changes nothing else in the
    job), and puts each such job that has a ready
    range at that instant into the set with work to share, where the
    borrowing scan that follows finds a job with work at once, without a
    call of [have_work_to_share]; [find_table_job] makes this transition
    when the pending queue is empty and the flag is still false, and only
    then: no operation clears the flag afterwards. *)
Theorem C5_sharing_entry_publishes_ready_work (q : SyncQueue) (j : job) (tj : TableJob) :
  j ∈ tables_to_process q ∨ j ∈ tables_being_processed q →
  jobs q !! j = Some tj →
  let q' := start_sharing_work q in
  sharing_work q' = true ∧
  jobs q' !! j = Some (set_notify_when_work_could_be_shared true tj) ∧
  (∃ tj', jobs q' !! j = Some tj' ∧
          notify_when_work_could_be_shared tj' = true ∧
          set_notify_when_work_could_be_shared
            (notify_when_work_could_be_shared tj) tj' = tj) ∧
  (job_have_work_to_share tj = true →
     j ∈ tables_with_work_to_share q' ∧
     ∃ j', (borrow_work q').2 = Returned (Some j') ∧ has_work q' j' = true) ∧
  (aborted q = false → tables_to_process q = [] →
     find_table_job q = borrow_work (if sharing_work q then q else q')) ∧
  (∀ ops, sharing_work (run ops q') = true).
Proof.
  intros Hin Hj.
  destruct (start_sharing_work_spec q)
    as (_ & _ & Hs & Hp & Hb & Hh & Hjs & Hsh).
  cbv zeta in *.
  assert (jobs (start_sharing_work q) !! j =
          Some (set_notify_when_work_could_be_shared true tj)) as Hj'.
  { rewrite Hjs, decide_True by done. by rewrite Hj. }
  split_and!.
  - done.
  - done.
  - exists (set_notify_when_work_could_be_shared true tj).
    split_and!; [done|done|by destruct tj].
  - intros Hw.
    assert (has_work q j = true) as Hwj by (unfold has_work; by rewrite Hj).
    assert (j ∈ tables_with_work_to_share (start_sharing_work q)) as Hjsh.
    { apply Hsh. right. done. }
    split; [done|].
    assert (finished (start_sharing_work q) = false) as Hfin.
    { apply not_true_iff_false. rewrite finished_spec, Hp, Hb.
      intros [Hp0 Hb0]. rewrite Hp0, Hb0 in Hin. set_solver. }
    pose proof (borrow_work_pass _ Hfin) as Hscan.
    destruct (borrow_work (start_sharing_work q)) as [q'' [|[j'|]|]];
      try done.
    + exists j'. split; [done|]. tauto.
    + destruct Hscan as (_ & Hnone & _).
      specialize (Hnone j Hjsh). rewrite Hh in Hnone. congruence.
  - apply find_table_job_borrow.
  - intros ops. by apply sharing_work_run.
Qed.

(** ** Invariants of a run *)

Lemma start_sharing_work_dom q : dom (jobs (start_sharing_work q)) = dom (jobs q).
Proof.
  destruct (start_sharing_work_spec q) as (_ & _ & _ & _ & _ & _ & Hj & _).
  apply set_eq. intros x. rewrite !elem_of_dom, Hj.
  case_decide; [|done]. by rewrite fmap_is_Some.
Qed.

Lemma find_table_job_cases q :
  (aborted q = true ∧ find_table_job q = (q, Cancelled)) ∨
  (∃ j rest, aborted q = false ∧ tables_to_process q = j :: rest ∧
     find_table_job q =
       (set_tables_being_processed ({[j]} ∪ tables_being_processed q)
          (set_tables_to_process rest q),
        Returned (Some j))) ∨
  (aborted q = false ∧ tables_to_process q = [] ∧
     find_table_job q =
       borrow_work (if sharing_work q then q else start_sharing_work q)).
Proof.
  destruct (aborted q) eqn:Ha.
  - left. split; [done|]. unfold find_table_job. by rewrite Ha.
  - right. destruct (tables_to_process q) as [|j rest] eqn:Hp.
    + right. split_and!; [done..|]. by apply find_table_job_borrow.
    + left. exists j, rest. split_and!; [done..|].
      by apply find_table_job_pending.
Qed.

(** [collections_ok] looks at the pending queue, the set being processed
    and the addresses in use, and at nothing else. *)
Lemma collections_ok_ext q q' :
  tables_to_process q' = tables_to_process q →
  tables_being_processed q' = tables_being_processed q →
  dom (jobs q') = dom (jobs q) →
  collections_ok q → collections_ok q'.
Proof.
  intros Hp Hb Hd [? ? ? ?]. split; rewrite ?Hp, ?Hb, ?Hd; done.
Qed.

Lemma collections_ok_borrow_work q :
  collections_ok q → collections_ok (borrow_work q).1.
Proof.
  destruct (borrow_work_frame q) as [Hq _]. cbv zeta in Hq.
  apply collections_ok_ext; by rewrite Hq.
Qed.

Lemma collections_ok_start_sharing_work q :
  collections_ok q → collections_ok (start_sharing_work q).
Proof.
  destruct (start_sharing_work_spec q) as (_ & _ & _ & Hp & Hb & _).
  apply collections_ok_ext; [done..|apply start_sharing_work_dom].
Qed.

Lemma collections_ok_enqueue tables q :
  collections_ok q → collections_ok (enqueue_tables_to_process tables q).
Proof.
  intros [Hnd Hpl Hbl Hdis].
  destruct (enqueue_tables_to_process_spec tables q)
    as (js & Hp & _ & Hndjs & Hfr & _ & _ & Hdom & _ & _ & _ & Hb & _).
  cbv zeta in *. rewrite Forall_forall in Hfr.
  split; rewrite ?Hp, ?Hb, ?Hdom.
  - apply NoDup_app. split_and!; [done| |done].
    intros x Hx Hxjs. apply Hfr in Hxjs. auto.
  - intros j [?|?]%elem_of_app; [set_solver|].
    apply elem_of_union. right. by apply elem_of_list_to_set.
  - set_solver.
  - intros j [?|Hj]%elem_of_app; [auto|].
    apply Hfr in Hj. set_solver.
Qed.

Lemma collections_ok_find_table_job q :
  collections_ok q → collections_ok (find_table_job q).1.
Proof.
  intros Hok.
  destruct (find_table_job_cases q)
    as [[_ ->]|[(j & rest & _ & Hp & ->)|(_ & _ & ->)]].
  - done.
  - destruct Hok as [Hnd Hpl Hbl Hdis]. rewrite Hp in Hnd, Hpl, Hdis.
    apply NoDup_cons in Hnd as [Hj Hnd].
    split; fields.
    + done.
    + intros x Hx. apply Hpl. by right.
    + apply union_subseteq. split; [|done].
      apply singleton_subseteq_l, Hpl. left.
    + intros x Hx [->%elem_of_singleton|Hin]%elem_of_union; [done|].
      eapply Hdis; [|done]. by right.
  - apply collections_ok_borrow_work.
    destruct (sharing_work q); [done|].
    by apply collections_ok_start_sharing_work.
Qed.

Lemma collections_ok_step q o :
  collections_ok q → collections_ok (step q o).
Proof.
  intros Hok. destruct o as [tables| | |j|j| | |j r|j]; cbn [step].
  - by apply collections_ok_enqueue.
  - by apply collections_ok_find_table_job.
  - by apply collections_ok_borrow_work.
  - destruct Hok as [Hnd Hpl Hbl Hdis]. split; fields; [done..|set_solver|].
    intros x Hx. apply Hdis in Hx. set_solver.
  - revert Hok. by apply collections_ok_ext.
  - by apply collections_ok_start_sharing_work.
  - revert Hok. apply collections_ok_ext; unfold abort, AbortableBarrier_abort;
      by destruct (aborted q).
  - revert Hok. apply collections_ok_ext; [done..|]. fields. apply dom_alter_L.
  - revert Hok. apply collections_ok_ext; [done..|]. fields. apply dom_alter_L.
Qed.

Lemma collections_ok_new w : collections_ok (SyncQueue_new w).
Proof.
  split; cbn.
  - constructor.
  - intros j Hj. by apply elem_of_nil in Hj.
  - done.
  - intros j Hj. by apply elem_of_nil in Hj.
Qed.

Lemma collections_ok_run ops q :
  collections_ok q → collections_ok (run ops q).
Proof.
  induction ops as [|o ops IH] using rev_ind; [done|].
  intros Hok. rewrite run_snoc. by apply collections_ok_step, IH.
Qed.




(** ** The jobs that advertise work are being processed *)

Lemma share_processed_borrow_work q :
  share_processed q → share_processed (borrow_work q).1.
Proof.
  unfold share_processed. intros Hsub.
  destruct (borrow_work_frame q) as [Hq Hsh]. cbv zeta in *.
  rewrite Hq at 2. fields. set_solver.
Qed.

Lemma share_processed_start_sharing_work q :
  tables_to_process q = [] →
  share_processed q → share_processed (start_sharing_work q).
Proof.
  unfold share_processed. intros Hp0 Hsub.
  destruct (start_sharing_work_spec q) as (_ & _ & _ & _ & Hb & _ & _ & Hsh).
  cbv zeta in *. intros x. rewrite Hsh, Hb, Hp0.
  intros [?|[[Hx|?] _]]; [auto| |done]. by apply elem_of_nil in Hx.
Qed.

Lemma share_processed_find_table_job q :
  share_processed q → share_processed (find_table_job q).1.
Proof.
  intros Hok.
  destruct (find_table_job_cases q)
    as [[_ ->]|[(j & rest & _ & Hp & ->)|(_ & Hp & ->)]].
  - done.
  - unfold share_processed in *. fields. set_solver.
  - apply share_processed_borrow_work.
    destruct (sharing_work q); [done|].
    by apply share_processed_start_sharing_work.
Qed.

Lemma share_processed_step q o :
  allowed q o → share_processed q → share_processed (step q o).
Proof.
  intros Hal Hok.
  destruct o as [tables| | |j|j| | |j r|j]; cbn [step allowed] in *.
  - destruct (enqueue_tables_to_process_spec tables q)
      as (js & _ & _ & _ & _ & _ & _ & _ & _ & _ & _ & Hb & Hsh).
    cbv zeta in *. unfold share_processed. by rewrite Hb, Hsh.
  - by apply share_processed_find_table_job.
  - by apply share_processed_borrow_work.
  - unfold share_processed, completed_table in *. fields. set_solver.
  - unfold share_processed, have_work_to_share in *. fields. set_solver.
  - by apply share_processed_start_sharing_work.
  - unfold abort, AbortableBarrier_abort. by destruct (aborted q).
  - done.
  - done.
Qed.

Lemma share_processed_run ops q :
  share_processed q → well_used ops q → share_processed (run ops q).
Proof.
  revert q. induction ops as [|o ops IH]; intros q Hok Hused; [done|].
  destruct Hused as [Hal Hused]. unfold run. cbn [foldl]. apply IH; [|done].
  by apply share_processed_step.
Qed.

(** C4 (as the code has it): after any sequence of operations on a new
    dispatcher in which [have_work_to_share] is called only for a job that
    is being processed at the time of the call (sharing mode being entered,
    as [find_table_job] does, when the pending queue is empty), the set with
    work to share is a subset of the set being processed. *)
Theorem C4_share_subset_processed_when_offers_are_for_processed (ops : list op) (w : N) :
  well_used ops (SyncQueue_new w) →
  tables_with_work_to_share (run ops (SyncQueue_new w))
    ⊆ tables_being_processed (run ops (SyncQueue_new w)).
Proof.
  intros Hused. by apply (share_processed_run ops (SyncQueue_new w)).
Qed.

(** ** Order of the ready ranges of a job *)

Lemma ranges_ordered_step q o : ranges_ordered q → ranges_ordered (step q o).
Proof.
  intros Hord.
  assert (∀ q', jobs q' = jobs q → ranges_ordered q') as Hsame.
  { intros q' Hq' j tj. rewrite Hq'. apply Hord. }
  assert (∀ q0, ranges_ordered q0 → ranges_ordered (borrow_work q0).1)
    as Hborrow.
  { intros q0 H0 j tj. destruct (borrow_work_frame q0) as [Hq _].
    cbv zeta in Hq. rewrite Hq. fields. apply H0. }
  assert (ranges_ordered (start_sharing_work q)) as Hstart.
  { intros j tj.
    destruct (start_sharing_work_spec q) as (_ & _ & _ & _ & _ & _ & Hj & _).
    rewrite Hj. case_decide; [|apply Hord].
    destruct (jobs q !! j) as [tj0|] eqn:Hj0; [|done].
    intros [= <-]. simpl. by eapply Hord. }
  destruct o as [tables| | |j0|j0| | |j0 r|j0]; cbn [step].
  - destruct (enqueue_tables_to_process_spec tables q)
      as (js & _ & _ & _ & _ & Hnew & Hold & Hdom & _).
    cbv zeta in *. intros j tj Hj.
    assert (j ∈ dom (jobs (enqueue_tables_to_process tables q))) as Hin
      by (apply elem_of_dom; eauto).
    rewrite Hdom in Hin. apply elem_of_union in Hin as [Hin|Hin].
    + rewrite Hold in Hj by done. by eapply Hord.
    + apply elem_of_list_to_set in Hin. revert Hj Hin. clear -Hnew.
      generalize dependent (jobs (enqueue_tables_to_process tables q)).
      intros m Hnew Hj Hin. induction Hnew as [|x t js ts Hx _ IH].
      * by apply elem_of_nil in Hin.
      * apply elem_of_cons in Hin as [->|?]; [|auto].
        rewrite Hx in Hj. injection Hj as <-. apply ordered_empty_queue.
  - destruct (find_table_job_cases q)
      as [[_ ->]|[(j & rest & _ & Hp & ->)|(_ & _ & ->)]].
    + done.
    + by apply Hsame.
    + apply Hborrow. by destruct (sharing_work q).
  - by apply Hborrow.
  - by apply Hsame.
  - by apply Hsame.
  - done.
  - apply Hsame. unfold abort, AbortableBarrier_abort. by destruct (aborted q).
  - intros j tj. fields. rewrite lookup_alter. case_decide; [subst|apply Hord].
    destruct (jobs q !! j) as [tj0|] eqn:Hj0; [|done].
    intros [= <-]. simpl. eapply ordered_push, Hord. done.
  - intros j tj. fields. rewrite lookup_alter. case_decide; [subst|apply Hord].
    destruct (jobs q !! j) as [tj0|] eqn:Hj0; [|done].
    intros [= <-]. simpl. eapply ordered_pop, Hord. done.
Qed.

Lemma ranges_ordered_run ops w : ranges_ordered (run ops (SyncQueue_new w)).
Proof.
  induction ops as [|o ops IH] using rev_ind.
  - intros j tj. cbn. by rewrite lookup_empty.
  - rewrite run_snoc. by apply ranges_ordered_step.
Qed.

(** C6: in every job of every run, the range at the top of the ready
    collection, which is the one a consumer is given first, has a priority
    greater than or equal to that of every range in the collection at that
    time; ranges of equal priority come in no promised order. *)
Theorem C6_top_range_has_greatest_priority
    (ops : list op) (w : N) (j : job) (tj : TableJob) (r x : KeyRangeToCheck) :
  jobs (run ops (SyncQueue_new w)) !! j = Some tj →
  PriorityQueue.top (ranges_to_check tj) = Some r →
  x ∈ ranges_to_check tj →
  priority x ≤ priority r.
Proof.
  intros Hj Htop Hx. eapply ordered_top; [|done..].
  by eapply ranges_ordered_run.
Qed.

(** ** Cancellation of a suspended borrower *)

(** C1 (what the code does): [borrow_work] has no [throw]; in the run where
    a second worker is suspended in [borrow_work] and [abort] is then
    called, [abort] sets the flag and notifies only the
    [borrowed_task_completed] of the job being processed, and the suspended
    worker, once woken, finds the run unfinished and nothing to share and
    waits again: its claim does not end with the cancellation error. *)
Theorem C1_woken_borrower_waits_again_after_abort :
  second_claim.2 = Waiting ∧
  aborted_while_suspended.1.2 = true ∧
  aborted aborted_while_suspended.1.1 = true ∧
  aborted_while_suspended.2 = [notify_all_borrowed_task_completed 1%positive] ∧
  (borrow_work aborted_while_suspended.1.1).2 = Waiting ∧
  (∀ q, (borrow_work q).2 ≠ Cancelled).
Proof.
  split_and!; [by vm_compute..|]. apply borrow_work_not_cancelled.
Qed.

(** ** The claims on sample runs *)

(** C2, as stated, fails: the scan returns job 2 and leaves it in the set
    with work to share; only job 1, visited before it and idle, is erased. *)
Lemma C2_returned_job_is_not_erased :
  (borrow_work three_tables_shared).2 = Returned (Some 2%positive) ∧
  2%positive ∈ tables_with_work_to_share (borrow_work three_tables_shared).1.
Proof. by_evaluation. Qed.

Lemma C2_witness :
  finished three_tables_shared = false ∧
  match borrow_work three_tables_shared with
  | (q', Returned (Some j)) =>
      j ∈ tables_with_work_to_share three_tables_shared ∧
      has_work three_tables_shared j = true ∧
      (∀ x, x ∈ tables_with_work_to_share three_tables_shared →
            (x < j)%positive → has_work three_tables_shared x = false) ∧
      (∀ x, x ∈ tables_with_work_to_share q' ↔
            x ∈ tables_with_work_to_share three_tables_shared ∧ (j ≤ x)%positive) ∧
      q' = set_tables_with_work_to_share (tables_with_work_to_share q')
             three_tables_shared
  | (q', Waiting) =>
      tables_with_work_to_share q' = ∅ ∧
      (∀ x, x ∈ tables_with_work_to_share three_tables_shared →
            has_work three_tables_shared x = false) ∧
      q' = set_tables_with_work_to_share ∅ three_tables_shared
  | _ => False
  end.
Proof.
  split; [reflexivity|].
  apply (C2_scan_erases_idle_returns_first three_tables_shared). reflexivity.
Defined.



(** C4, as stated, fails: [have_work_to_share] inserts whatever job it is
    given, also one that [completed_table] has taken out of the set being
    processed. *)
Lemma C4_offer_after_completion_breaks_inclusion :
  ¬ (tables_with_work_to_share (run offered_after_completion (SyncQueue_new 2))
       ⊆ tables_being_processed (run offered_after_completion (SyncQueue_new 2))).
Proof. by_evaluation. Qed.

Lemma C4_witness :
  well_used
    [OpEnqueue [T1; T2]; OpClaim; OpClaim; OpPush 2%positive R5;
     OpOffer 2%positive; OpClaim; OpComplete 1%positive]
    (SyncQueue_new 2) ∧
  tables_with_work_to_share
    (run [OpEnqueue [T1; T2]; OpClaim; OpClaim; OpPush 2%positive R5;
          OpOffer 2%positive; OpClaim; OpComplete 1%positive]
       (SyncQueue_new 2))
  ⊆ tables_being_processed
    (run [OpEnqueue [T1; T2]; OpClaim; OpClaim; OpPush 2%positive R5;
          OpOffer 2%positive; OpClaim; OpComplete 1%positive]
       (SyncQueue_new 2)).
Proof.
  assert (well_used
    [OpEnqueue [T1; T2]; OpClaim; OpClaim; OpPush 2%positive R5;
     OpOffer 2%positive; OpClaim; OpComplete 1%positive]
    (SyncQueue_new 2)) as H.
  { cbn [well_used allowed]. split_and!; try exact I; by_evaluation. }
  split; [exact H|].
  exact (C4_share_subset_processed_when_offers_are_for_processed _ 2 H).
Defined.

Lemma C5_witness :
  (2%positive ∈ tables_to_process ready_before_sharing ∨
   2%positive ∈ tables_being_processed ready_before_sharing) ∧
  jobs ready_before_sharing !! 2%positive = Some two_ranges_ready ∧
  sharing_work (start_sharing_work ready_before_sharing) = true ∧
  jobs (start_sharing_work ready_before_sharing) !! 2%positive =
    Some (set_notify_when_work_could_be_shared true two_ranges_ready) ∧
  (∃ tj', jobs (start_sharing_work ready_before_sharing) !! 2%positive = Some tj' ∧
          notify_when_work_could_be_shared tj' = true ∧
          set_notify_when_work_could_be_shared
            (notify_when_work_could_be_shared two_ranges_ready) tj'
          = two_ranges_ready) ∧
  2%positive ∈ tables_with_work_to_share (start_sharing_work ready_before_sharing) ∧
  find_table_job ready_before_sharing =
    borrow_work (start_sharing_work ready_before_sharing).
Proof.
  assert (2%positive ∈ tables_to_process ready_before_sharing ∨
          2%positive ∈ tables_being_processed ready_before_sharing) as H1
    by by_evaluation.
  assert (jobs ready_before_sharing !! 2%positive = Some two_ranges_ready) as H2
    by reflexivity.
  destruct (C5_sharing_entry_publishes_ready_work
              ready_before_sharing 2%positive two_ranges_ready H1 H2)
    as (Hs & Hj & Hflag & Hw & Hf & _).
  split_and!; [exact H1|exact H2|exact Hs|exact Hj|exact Hflag| |].
  - apply Hw. reflexivity.
  - apply Hf; reflexivity.
Defined.

Lemma C6_witness :
  jobs ready_before_sharing !! 2%positive = Some two_ranges_ready ∧
  PriorityQueue.top (ranges_to_check two_ranges_ready) = Some R7 ∧
  R5 ∈ ranges_to_check two_ranges_ready ∧
  priority R5 ≤ priority R7.
Proof.
  assert (R5 ∈ ranges_to_check two_ranges_ready) as H3
    by (apply list_elem_of_further, list_elem_of_here).
  split_and!; [reflexivity|reflexivity|exact H3|].
  exact (C6_top_range_has_greatest_priority
           [OpEnqueue [T1; T2]; OpClaim; OpClaim;
            OpPush 2%positive R5; OpPush 2%positive R7]
           3 2%positive two_ranges_ready R7 R5 eq_refl eq_refl H3).
Defined.

Lemma C7_witness :
  aborted (SyncQueue_new 2) = false ∧
  ∃ js,
    tables_to_process (enqueue_tables_to_process [T1; T2] (SyncQueue_new 2)) = js ∧
    length js = 2%nat ∧ NoDup js ∧
    Forall2 (λ j t, ∃ tj,
               jobs (enqueue_tables_to_process [T1; T2] (SyncQueue_new 2)) !! j
                 = Some tj ∧
               table tj = t ∧
               table_id tj = id_from_name t ∧
               subdividable tj = primary_key_subdividable t ∧
               ranges_to_retrieve tj = [] ∧
               ranges_to_check tj = [] ∧
               notify_when_work_could_be_shared tj = false ∧
               job_have_work_to_share tj = false)
      js [T1; T2] ∧
    (claims 2 (enqueue_tables_to_process [T1; T2] (SyncQueue_new 2))).2 =
      (λ j, Returned (Some j)) <$> js.
Proof.
  split; [reflexivity|].
  destruct (C7_enqueue_appends_claims_pop_front [T1; T2] (SyncQueue_new 2) eq_refl)
    as (js & Hp & Hlen & Hnd & _ & Htab & _ & Hc).
  exists js. split_and!; [exact Hp|exact Hlen|exact Hnd|exact Htab|].
  destruct (Hc 2%nat) as (Hr & _).
  - rewrite Hp. cbn [tables_to_process SyncQueue_new app]. rewrite Hlen. done.
  - rewrite Hr, Hp. cbn [tables_to_process SyncQueue_new app].
    rewrite take_ge by (rewrite Hlen; done). reflexivity.
Defined.

Lemma C8_witness :
  aborted one_table_claimed = false ∧
  ((find_table_job one_table_claimed).2 = Returned None ↔
     tables_to_process one_table_claimed = [] ∧
     tables_being_processed one_table_claimed = ∅) ∧
  ((borrow_work one_table_claimed).2 = Returned None ↔
     tables_to_process one_table_claimed = [] ∧
     tables_being_processed one_table_claimed = ∅).
Proof.
  split; [reflexivity|].
  apply (C8_no_work_iff_finished one_table_claimed). reflexivity.
Defined.

Lemma C9_witness :
  aborted aborted_while_suspended.1.1 = true ∧
  find_table_job aborted_while_suspended.1.1 =
    (aborted_while_suspended.1.1, Cancelled).
Proof.
  split; [reflexivity|].
  apply (C9_claim_after_abort_is_cancelled aborted_while_suspended.1.1).
  reflexivity.
Defined.

Lemma C10_witness :
  (find_table_job aborted_while_suspended.1.1).2 = Cancelled ∧
  (find_table_job aborted_while_suspended.1.1).1 = aborted_while_suspended.1.1.
Proof.
  split; [reflexivity|].
  apply (C10_cancelled_claim_changes_nothing aborted_while_suspended.1.1).
  reflexivity.
Defined.

(** * Further properties of the dispatcher *)

(** ** Helper facts *)

Lemma SyncQueue_eq q q' :
  workers q' = workers q → aborted q' = aborted q → snapshot q' = snapshot q →
  sharing_work q' = sharing_work q →
  tables_to_process q' = tables_to_process q →
  tables_being_processed q' = tables_being_processed q →
  tables_with_work_to_share q' = tables_with_work_to_share q →
  jobs q' = jobs q →
  q' = q.
Proof. destruct q, q'. cbn. by intros -> -> -> -> -> -> -> ->. Qed.

Lemma in_order_nil : in_order ∅ = [].
Proof. unfold in_order. by rewrite elements_empty. Qed.

(** The walk of a set starts at its least address. *)
Lemma in_order_least (s : gset job) j :
  j ∈ s → (∀ x, x ∈ s → (j ≤ x)%positive) →
  ∃ rest, in_order s = j :: rest.
Proof.
  intros Hj Hleast.
  pose proof (in_order_sorted s) as Hs.
  pose proof (elem_of_in_order s) as Hin.
  destruct (in_order s) as [|h rest].
  - apply Hin in Hj. by apply elem_of_nil in Hj.
  - exists rest. f_equal.
    apply StronglySorted_cons in Hs as [Hh _]. rewrite Forall_forall in Hh.
    assert (j ≤ h)%positive by (apply Hleast, Hin; left).
    apply Hin, elem_of_cons in Hj as [->|Hj]; [done|].
    specialize (Hh j Hj). lia.
Qed.

Lemma finished_set_share s q :
  finished (set_tables_with_work_to_share s q) = finished q.
Proof. done. Qed.

Lemma find_table_job_no_work q :
  aborted q = false →
  ((find_table_job q).2 = Returned None ↔ finished q = true).
Proof.
  intros Ha. unfold find_table_job. rewrite Ha.
  destruct (tables_to_process q) as [|j rest] eqn:Hp.
  - rewrite borrow_work_no_work. destruct (sharing_work q); [done|].
    destruct (start_sharing_work_spec q) as (_ & _ & _ & Hp' & Hb' & _).
    unfold finished. by rewrite Hp', Hb'.
  - cbn [snd]. unfold finished. rewrite Hp. done.
Qed.

(** ** A pass of [borrow_work] settles *)

(** X1: a pass of [borrow_work] run again on the state it left, with
    nothing done in between, ends the same way and changes nothing more:
    a borrower woken for no reason waits again, and a second borrower is
    handed the job the first one was handed. *)
Theorem borrow_work_again_is_the_same (q : SyncQueue) :
  borrow_work (borrow_work q).1 = borrow_work q.
Proof.
  destruct (finished q) eqn:Hfin.
  - unfold borrow_work at 2 3. rewrite Hfin. cbn [fst].
    unfold borrow_work. by rewrite Hfin.
  - pose proof (borrow_work_pass q Hfin) as Hpass.
    destruct (borrow_work q) as [q' [|[j|]|]]; [done| |done|]; cbn [fst].
    + destruct Hpass as (Hj & Hw & _ & Hsh & Hq).
      destruct (in_order_least (tables_with_work_to_share q') j) as [rest Hord].
      { apply Hsh. split; [done|lia]. }
      { intros x Hx. by apply Hsh in Hx as [_ ?]. }
      assert (finished q' = false) as Hfin' by (rewrite Hq; exact Hfin).
      assert (has_work q' j = true) as Hw' by (rewrite Hq; exact Hw).
      unfold borrow_work. rewrite Hfin', Hord. cbn [scan_work_to_share].
      by rewrite Hw'.
    + destruct Hpass as (Hsh & _ & Hq).
      assert (finished q' = false) as Hfin' by (rewrite Hq; exact Hfin).
      unfold borrow_work. rewrite Hfin', Hsh, in_order_nil. done.
Qed.

(** ** Completion and the end of the run *)

Lemma completed_table_finished j q :
  finished (completed_table j q).1 = true ↔
  tables_to_process q = [] ∧ tables_being_processed q ⊆ {[j]}.
Proof.
  rewrite finished_spec. unfold completed_table. fields.
  split; intros [Hp Hb]; (split; [done|]); clear Hp.
  - intros x Hx. destruct (decide (x = j)) as [->|Hne]; [set_solver|].
    assert (x ∈ tables_being_processed q ∖ {[j]}) as Hin by set_solver.
    rewrite Hb in Hin. set_solver.
  - apply set_eq. intros x. set_solver.
Qed.

(** X2: [completed_table] calls [cond.notify_all()] exactly when no table
    is pending and no table other than the completed one is being
    processed; in every other case it notifies nobody. *)
Theorem completed_table_notifies_iff_last (j : job) (q : SyncQueue) :
  ((completed_table j q).2 = [notify_all_cond] ↔
     tables_to_process q = [] ∧ tables_being_processed q ⊆ {[j]}) ∧
  ((completed_table j q).2 = [] ↔
     ¬ (tables_to_process q = [] ∧ tables_being_processed q ⊆ {[j]})).
Proof.
  rewrite <-completed_table_finished.
  unfold completed_table at 1 3. cbn [snd].
  destruct (finished _); split; split; done.
Qed.

(** X3: when the last table being processed is completed and none is
    pending, the dispatcher notifies [cond], the borrowers it wakes leave
    [borrow_work] with the null job, and a new claim on a run that is not
    aborted gets the null job as well. *)
Theorem completing_the_last_table_releases_borrowers (j : job) (q : SyncQueue) :
  tables_to_process q = [] → tables_being_processed q ⊆ {[j]} →
  (completed_table j q).2 = [notify_all_cond] ∧
  borrow_work (completed_table j q).1 = ((completed_table j q).1, Returned None) ∧
  (aborted q = false →
     (find_table_job (completed_table j q).1).2 = Returned None).
Proof.
  intros Hp Hb.
  assert (finished (completed_table j q).1 = true) as Hfin
    by by apply completed_table_finished.
  split_and!.
  - unfold completed_table in *. cbn [fst snd] in *. by rewrite Hfin.
  - unfold borrow_work. by rewrite Hfin.
  - intros Ha. by apply find_table_job_no_work.
Qed.

(** ** Offers and borrowers *)

(** X4: when nothing is advertised and the run is not finished (the state
    in which a borrower waits), [have_work_to_share] for a job with a
    ready range notifies [cond], and the pass of [borrow_work] the woken
    borrower runs returns that job and leaves it advertised. *)
Theorem offer_hands_the_job_to_a_waiting_borrower (j : job) (q : SyncQueue) :
  tables_with_work_to_share q = ∅ → finished q = false → has_work q j = true →
  (have_work_to_share j q).2 = [notify_all_cond] ∧
  borrow_work (have_work_to_share j q).1 =
    ((have_work_to_share j q).1, Returned (Some j)).
Proof.
  intros Hsh Hfin Hw. split; [done|].
  unfold have_work_to_share. cbn [fst]. rewrite Hsh.
  set (q1 := set_tables_with_work_to_share _ q).
  destruct (in_order_least (tables_with_work_to_share q1) j) as [rest Hord].
  { unfold q1. fields. set_solver. }
  { unfold q1. fields. intros x Hx. assert (x = j) as -> by set_solver. lia. }
  unfold borrow_work.
  change (finished q1) with (finished q). rewrite Hfin, Hord.
  cbn [scan_work_to_share]. change (has_work q1 j) with (has_work q j).
  by rewrite Hw.
Qed.

(** X5: a job that [find_table_job] returns when the pending queue is
    empty, that is, a job handed to a borrower, has a ready range at the
    time of the call and is still advertised after it. *)
Theorem borrowed_job_has_a_ready_range (q : SyncQueue) (j : job) :
  tables_to_process q = [] →
  (find_table_job q).2 = Returned (Some j) →
  has_work (find_table_job q).1 j = true ∧
  has_work q j = true ∧
  j ∈ tables_with_work_to_share (find_table_job q).1.
Proof.
  intros Hp. unfold find_table_job. rewrite Hp.
  destruct (aborted q); [done|].
  set (q0 := if sharing_work q then q else start_sharing_work q).
  assert (∀ x, has_work q0 x = has_work q x) as Hh.
  { unfold q0. destruct (sharing_work q); [done|].
    by destruct (start_sharing_work_spec q) as (_ & _ & _ & _ & _ & ? & _). }
  destruct (finished q0) eqn:Hfin.
  { unfold borrow_work. by rewrite Hfin. }
  pose proof (borrow_work_pass q0 Hfin) as Hpass.
  destruct (borrow_work q0) as [q' [|[j'|]|]]; try done.
  cbn [fst snd]. intros [= ->].
  destruct Hpass as (Hj & Hw & _ & Hsh & Hq).
  split_and!.
  - rewrite Hq. exact Hw.
  - by rewrite <-Hh.
  - apply Hsh. split; [done|lia].
Qed.

(** X6: in a run in which work is offered only for jobs being processed,
    every job [find_table_job] returns, from the pending queue or from the
    advertised set, is in the set being processed after the call and
    refers to a live [TableJob]. *)
Theorem returned_job_is_being_processed (ops : list op) (w : N) (j : job) :
  well_used ops (SyncQueue_new w) →
  (find_table_job (run ops (SyncQueue_new w))).2 = Returned (Some j) →
  j ∈ tables_being_processed (find_table_job (run ops (SyncQueue_new w))).1 ∧
  j ∈ dom (jobs (find_table_job (run ops (SyncQueue_new w))).1).
Proof.
  intros Hused.
  set (q := run ops (SyncQueue_new w)).
  assert (share_processed q) as Hsub
    by (apply share_processed_run; [done|done]).
  assert (collections_ok q) as Hcol
    by apply collections_ok_run, collections_ok_new.
  intros Hr.
  assert (j ∈ tables_being_processed (find_table_job q).1) as Hin.
  { destruct (find_table_job_cases q)
      as [[_ Heq]|[(j0 & rest & _ & Hp & Heq)|(_ & Hp & Heq)]];
      rewrite Heq in Hr |- *.
    - done.
    - cbn [snd] in Hr. injection Hr as ->. fields. set_solver.
    - set (q0 := if sharing_work q then q else start_sharing_work q) in *.
      assert (share_processed q0) as Hsub0.
      { unfold q0. destruct (sharing_work q); [done|].
        by apply share_processed_start_sharing_work. }
      destruct (finished q0) eqn:Hfin.
      { unfold borrow_work in Hr. by rewrite Hfin in Hr. }
      pose proof (borrow_work_pass q0 Hfin) as Hpass.
      destruct (borrow_work q0) as [q' [|[j'|]|]]; try done.
      cbn [fst snd] in *. injection Hr as ->.
      destruct Hpass as (Hj & _ & _ & _ & Hq).
      rewrite Hq. fields. by apply Hsub0. }
  split; [done|].
  by apply (processed_live _ (collections_ok_find_table_job q Hcol)).
Qed.

(** ** What a step does to the store and to the pending queue *)

Lemma borrow_work_fields q :
  aborted (borrow_work q).1 = aborted q ∧
  sharing_work (borrow_work q).1 = sharing_work q ∧
  tables_to_process (borrow_work q).1 = tables_to_process q ∧
  tables_being_processed (borrow_work q).1 = tables_being_processed q ∧
  jobs (borrow_work q).1 = jobs q.
Proof.
  destruct (borrow_work_frame q) as [Hq _]. cbv zeta in Hq. by rewrite Hq.
Qed.

Lemma enqueue_lookup tables q j tj :
  jobs (enqueue_tables_to_process tables q) !! j = Some tj →
  jobs q !! j = Some tj ∨ (jobs q !! j = None ∧ ∃ t, tj = TableJob_new t).
Proof.
  destruct (enqueue_tables_to_process_spec tables q)
    as (js & _ & _ & _ & Hfr & Hnew & Hold & Hdom & _).
  cbv zeta in *. intros Hj.
  destruct (jobs q !! j) as [tj0|] eqn:Hj0.
  - left. rewrite Hold in Hj by (apply elem_of_dom; eauto). congruence.
  - right. split; [done|].
    assert (j ∈ dom (jobs (enqueue_tables_to_process tables q))) as Hin
      by (apply elem_of_dom; eauto).
    rewrite Hdom in Hin. apply elem_of_union in Hin as [Hin|Hin].
    { apply elem_of_dom in Hin as [? ?]. congruence. }
    apply elem_of_list_to_set in Hin. revert Hj Hin. clear -Hnew.
    generalize dependent (jobs (enqueue_tables_to_process tables q)).
    intros m Hnew Hj Hin. induction Hnew as [|x t js ts Hx _ IH].
    + by apply elem_of_nil in Hin.
    + apply elem_of_cons in Hin as [->|?]; [|auto].
      exists t. congruence.
Qed.

Lemma dom_jobs_step q o : dom (jobs q) ⊆ dom (jobs (step q o)).
Proof.
  destruct o as [tables| | |j0|j0| | |j0 r|j0]; cbn [step]; try done.
  - destruct (enqueue_tables_to_process_spec tables q)
      as (js & _ & _ & _ & _ & _ & _ & Hdom & _).
    cbv zeta in Hdom. rewrite Hdom. set_solver.
  - destruct (find_table_job_cases q)
      as [[_ ->]|[(j & rest & _ & _ & ->)|(_ & _ & ->)]]; [done..|].
    destruct (borrow_work_fields
                (if sharing_work q then q else start_sharing_work q))
      as (_ & _ & _ & _ & ->).
    destruct (sharing_work q); [done|]. by rewrite start_sharing_work_dom.
  - by destruct (borrow_work_fields q) as (_ & _ & _ & _ & ->).
  - by rewrite start_sharing_work_dom.
  - unfold abort, AbortableBarrier_abort. by destruct (aborted q).
  - fields. by rewrite dom_alter_L.
  - fields. by rewrite dom_alter_L.
Qed.

Lemma pending_step q o x :
  x ∈ tables_to_process (step q o) →
  x ∈ tables_to_process q ∨ x ∉ dom (jobs q).
Proof.
  destruct o as [tables| | |j0|j0| | |j0 r|j0]; cbn [step]; auto.
  - destruct (enqueue_tables_to_process_spec tables q)
      as (js & Hp & _ & _ & Hfr & _).
    cbv zeta in *. rewrite Hp, Forall_forall in *.
    intros [?|?]%elem_of_app; auto.
  - destruct (find_table_job_cases q)
      as [[_ ->]|[(j & rest & _ & Hp & ->)|(_ & _ & ->)]]; auto.
    + fields. rewrite Hp. intros ?. left. by right.
    + destruct (borrow_work_fields
                  (if sharing_work q then q else start_sharing_work q))
        as (_ & _ & -> & _).
      destruct (sharing_work q); auto.
      destruct (start_sharing_work_spec q) as (_ & _ & _ & -> & _). auto.
  - destruct (borrow_work_fields q) as (_ & _ & -> & _). auto.
  - destruct (start_sharing_work_spec q) as (_ & _ & _ & -> & _). auto.
  - unfold abort, AbortableBarrier_abort. destruct (aborted q); auto.
Qed.

(** X7: a job that has left the pending queue never enters it again,
    whatever is done to the dispatcher afterwards: no table is handed out
    whole a second time. *)
Theorem claimed_job_is_never_pending_again (q : SyncQueue) (ops : list op) (j : job) :
  j ∈ dom (jobs q) → j ∉ tables_to_process q →
  j ∉ tables_to_process (run ops q).
Proof.
  revert q. induction ops as [|o ops IH]; intros q Hdom Hp; [done|].
  unfold run. cbn [foldl]. apply IH.
  - by apply dom_jobs_step.
  - intros Hin. apply pending_step in Hin as [?|?]; done.
Qed.

(** ** Sharing mode *)

Lemma start_sharing_work_in_snapshot l q :
  snapshot (foldl start_sharing_work_in q l) = snapshot q.
Proof.
  revert q. induction l as [|j l IH]; intros q; [done|].
  cbn [foldl]. rewrite IH. unfold start_sharing_work_in.
  by destruct (has_work _ j).
Qed.

(** X8: entering sharing mode a second time changes nothing: the flags
    are set and the jobs with ready ranges are advertised already. *)
Theorem start_sharing_work_twice_is_once (q : SyncQueue) :
  start_sharing_work (start_sharing_work q) = start_sharing_work q.
Proof.
  destruct (start_sharing_work_spec q)
    as (Hw & Ha & Hs & Hp & Hb & Hh & Hj & Hsh).
  destruct (start_sharing_work_spec (start_sharing_work q))
    as (Hw' & Ha' & Hs' & Hp' & Hb' & Hh' & Hj' & Hsh').
  cbv zeta in *. apply SyncQueue_eq; try done.
  - unfold start_sharing_work at 1. by rewrite !start_sharing_work_in_snapshot.
  - congruence.
  - apply set_eq. intros x. rewrite Hsh', Hh, Hp, Hb, Hsh. tauto.
  - apply map_eq. intros x. rewrite Hj', Hp, Hb, Hj.
    case_decide; [|done]. apply set_notify_twice.
Qed.

(** X9: in every run of a new dispatcher, a job whose
    [notify_when_work_could_be_shared] is set exists only once
    [sharing_work] is set: no job is told to publish its work before
    sharing mode. *)
Theorem publish_flag_only_in_sharing_mode (ops : list op) (w : N) (j : job) (tj : TableJob) :
  jobs (run ops (SyncQueue_new w)) !! j = Some tj →
  notify_when_work_could_be_shared tj = true →
  sharing_work (run ops (SyncQueue_new w)) = true.
Proof.
  assert (sharing_work (run ops (SyncQueue_new w)) = true ∨
          ∀ j tj, jobs (run ops (SyncQueue_new w)) !! j = Some tj →
                  notify_when_work_could_be_shared tj = false) as [?|Hclear].
  { induction ops as [|o ops IH] using rev_ind.
    - right. intros j0 tj0. cbn. by rewrite lookup_empty.
    - rewrite run_snoc. set (q := run ops (SyncQueue_new w)) in *.
      destruct IH as [Hs|Hclear]; [left; by apply sharing_work_step|].
      destruct o as [tables| | |j0|j0| | |j0 r|j0]; cbn [step]; auto.
      + right. intros j1 tj1 [?|[_ [t ->]]]%enqueue_lookup; [eauto|done].
      + destruct (find_table_job_cases q)
          as [[_ ->]|[(j1 & rest & _ & _ & ->)|(_ & _ & ->)]]; auto.
        destruct (borrow_work_fields
                    (if sharing_work q then q else start_sharing_work q))
          as (_ & -> & _ & _ & ->).
        destruct (sharing_work q); auto.
        left. by destruct (start_sharing_work_spec q) as (_ & _ & ? & _).
      + destruct (borrow_work_fields q) as (_ & _ & _ & _ & ->). auto.
      + left. by destruct (start_sharing_work_spec q) as (_ & _ & ? & _).
      + right. unfold abort, AbortableBarrier_abort. by destruct (aborted q).
      + right. intros j1 tj1. fields. rewrite lookup_alter.
        case_decide; [subst|apply Hclear].
        destruct (jobs q !! j1) as [tj0|] eqn:Hj0; [|done].
        intros [= <-]. cbn. by eapply Hclear.
      + right. intros j1 tj1. fields. rewrite lookup_alter.
        case_decide; [subst|apply Hclear].
        destruct (jobs q !! j1) as [tj0|] eqn:Hj0; [|done].
        intros [= <-]. cbn. by eapply Hclear. }
  - done.
  - intros Hj Hn. rewrite (Hclear j tj Hj) in Hn. done.
Qed.

(** ** A whole run: enqueue, claim every table, complete every table *)

Lemma complete_all_fields js q :
  aborted (complete_all js q) = aborted q ∧
  tables_to_process (complete_all js q) = tables_to_process q ∧
  tables_being_processed (complete_all js q)
    = tables_being_processed q ∖ list_to_set js ∧
  tables_with_work_to_share (complete_all js q)
    = tables_with_work_to_share q ∖ list_to_set js.
Proof.
  unfold complete_all. revert q. induction js as [|j js IH]; intros q.
  - cbn [foldl]. split_and!; [done..| |]; set_solver.
  - cbn [foldl]. destruct (IH (completed_table j q).1) as (-> & -> & -> & ->).
    unfold completed_table. fields. split_and!; [done..| |]; set_solver.
Qed.

Lemma claims_aborted n q :
  aborted q = false → (n ≤ length (tables_to_process q))%nat →
  aborted (claims n q).1 = false.
Proof.
  revert q. induction n as [|n IH]; intros q Ha Hn; cbn [claims]; [done|].
  destruct (tables_to_process q) as [|j rest] eqn:Hp; [simpl in Hn; lia|].
  rewrite (find_table_job_pending q j rest Ha Hp).
  set (q1 := set_tables_being_processed _ _).
  specialize (IH q1 Ha). destruct (claims n q1) as [q2 rs]. apply IH.
  simpl in Hn. change (tables_to_process q1) with rest. lia.
Qed.

(** X10: on a new dispatcher, after the tables are enqueued, as many
    claims as there are tables return the jobs in queue order, one each;
    once every one of these jobs is reported complete, the next claim
    returns the null job: the run is over. *)
Theorem claiming_and_completing_every_table_ends_the_run (tables : list Table) (w : N) :
  (claims (length tables)
     (enqueue_tables_to_process tables (SyncQueue_new w))).2 =
    (λ j, Returned (Some j)) <$>
      tables_to_process (enqueue_tables_to_process tables (SyncQueue_new w)) ∧
  (find_table_job
     (complete_all
        (tables_to_process (enqueue_tables_to_process tables (SyncQueue_new w)))
        (claims (length tables)
           (enqueue_tables_to_process tables (SyncQueue_new w))).1)).2
  = Returned None.
Proof.
  set (q1 := enqueue_tables_to_process tables (SyncQueue_new w)).
  destruct (enqueue_tables_to_process_spec tables (SyncQueue_new w))
    as (js & Hp & Hlen & _ & _ & _ & _ & _ & _ & Ha & _ & Hb & _).
  fold q1 in Hp, Ha, Hb. cbn in Hp, Ha, Hb.
  assert (length tables ≤ length (tables_to_process q1))%nat as Hn
    by (rewrite Hp, Hlen; done).
  destruct (claims_of_pending (length tables) q1 Ha Hn) as (Hr & Hp2 & Hb2).
  pose proof (claims_aborted (length tables) q1 Ha Hn) as Ha2.
  rewrite take_ge in Hr, Hb2 by (rewrite Hp, Hlen; done).
  rewrite drop_ge in Hp2 by (rewrite Hp, Hlen; done).
  split; [done|].
  destruct (complete_all_fields (tables_to_process q1)
              (claims (length tables) q1).1) as (Ha3 & Hp3 & Hb3 & _).
  apply find_table_job_no_work; [congruence|].
  apply finished_spec. rewrite Hp3, Hb3, Hp2, Hb2, Hb. split; [done|].
  set_solver.
Qed.

(** X11: a job reported complete (and not pending) is not what the next
    claim returns: [completed_table] takes it out of the advertised set as
    well, so no borrower is handed a retired table. *)
Theorem completed_job_is_not_handed_out (q : SyncQueue) (j : job) :
  j ∉ tables_to_process q →
  (find_table_job (completed_table j q).1).2 ≠ Returned (Some j).
Proof.
  intros Hp. set (q1 := (completed_table j q).1).
  assert (j ∉ tables_to_process q1) as Hp1 by done.
  assert (j ∉ tables_being_processed q1) as Hb1
    by (unfold q1, completed_table; fields; set_solver).
  assert (j ∉ tables_with_work_to_share q1) as Hs1
    by (unfold q1, completed_table; fields; set_solver).
  clearbody q1.
  destruct (find_table_job_cases q1)
    as [[_ ->]|[(j0 & rest & _ & Hq & ->)|(_ & _ & ->)]]; [done| |].
  - cbn [snd]. intros [= ->]. apply Hp1. rewrite Hq. left.
  - set (q0 := if sharing_work q1 then q1 else start_sharing_work q1).
    assert (j ∉ tables_with_work_to_share q0) as Hs0.
    { unfold q0. destruct (sharing_work q1); [done|].
      destruct (start_sharing_work_spec q1) as (_ & _ & _ & _ & _ & _ & _ & Hsh).
      rewrite Hsh. tauto. }
    destruct (finished q0) eqn:Hfin.
    { unfold borrow_work. by rewrite Hfin. }
    pose proof (borrow_work_pass q0 Hfin) as Hpass.
    destruct (borrow_work q0) as [q' [|[j'|]|]]; try done.
    cbn [snd]. intros [= ->]. by destruct Hpass as (? & _).
Qed.

(** ** Abort *)

Lemma aborted_step q o : aborted q = true → aborted (step q o) = true.
Proof.
  intros Ha. destruct o as [tables| | |j0|j0| | |j0 r|j0]; cbn [step]; try done.
  - destruct (enqueue_tables_to_process_spec tables q)
      as (js & _ & _ & _ & _ & _ & _ & _ & _ & Hab & _).
    cbv zeta in Hab. by rewrite Hab.
  - unfold find_table_job. by rewrite Ha.
  - by destruct (borrow_work_fields q) as (-> & _).
  - by destruct (start_sharing_work_spec q) as (_ & -> & _).
  - unfold abort, AbortableBarrier_abort. by rewrite Ha.
Qed.

Lemma aborted_run ops q : aborted q = true → aborted (run ops q) = true.
Proof.
  induction ops as [|o ops IH] using rev_ind; [done|].
  intros Ha. rewrite run_snoc. by apply aborted_step, IH.
Qed.

(** X12: cancellation is final: after [abort], whatever else is done to
    the dispatcher, every [find_table_job] throws [aborted_error] and
    changes nothing. *)
Theorem every_claim_after_abort_is_cancelled (q : SyncQueue) (ops : list op) :
  find_table_job (run ops (abort q).1.1) = (run ops (abort q).1.1, Cancelled).
Proof.
  assert (aborted (run ops (abort q).1.1) = true) as Ha.
  { apply aborted_run. unfold abort, AbortableBarrier_abort.
    by destruct (aborted q) eqn:E. }
  unfold find_table_job. by rewrite Ha.
Qed.

(** X13: [abort] leaves the pending queue, both sets, the sharing flag and
    every job as they are, and its notification pass calls [notify_all] on
    [borrowed_task_completed] once for each job being processed and for no
    other job. *)
Theorem abort_notifies_each_processed_job_once (q : SyncQueue) :
  (abort q).1.1 = set_aborted true q ∧
  (∀ j, notify_all_borrowed_task_completed j ∈ (abort q).2 ↔
        j ∈ tables_being_processed q) ∧
  NoDup (abort q).2 ∧
  length (abort q).2 = size (tables_being_processed q).
Proof.
  assert ((abort q).1.1 = set_aborted true q) as H1.
  { unfold abort, AbortableBarrier_abort.
    destruct (aborted q) eqn:Ha; [|done]. destruct q; cbn in *. by subst. }
  assert ((abort q).2 =
          notify_all_borrowed_task_completed <$> in_order (tables_being_processed q))
    as H2.
  { unfold abort, AbortableBarrier_abort. by destruct (aborted q). }
  rewrite H2. split_and!.
  - done.
  - intros j. rewrite list_elem_of_fmap. split.
    + intros (x & [= ->] & Hx). by apply elem_of_in_order.
    + intros Hj. exists j. split; [done|]. by apply elem_of_in_order.
  - apply NoDup_fmap_2; [|apply NoDup_in_order]. by intros x y [= ->].
  - rewrite length_fmap. unfold in_order. rewrite merge_sort_Permutation. done.
Qed.

(** ** The identity of a job *)

Lemma start_sharing_work_lookup q j tj' :
  jobs (start_sharing_work q) !! j = Some tj' →
  ∃ tj, jobs q !! j = Some tj ∧ table tj' = table tj ∧
        table_id tj' = table_id tj ∧ subdividable tj' = subdividable tj ∧
        ranges_to_check tj' = ranges_to_check tj.
Proof.
  destruct (start_sharing_work_spec q) as (_ & _ & _ & _ & _ & _ & Hj & _).
  rewrite Hj. case_decide; [|eauto 10].
  destruct (jobs q !! j) as [tj|]; [|done]. intros [= <-]. eauto 10.
Qed.

Lemma step_lookup q o j tj' :
  jobs (step q o) !! j = Some tj' →
  (∃ tj, jobs q !! j = Some tj ∧ table tj' = table tj ∧
         table_id tj' = table_id tj ∧ subdividable tj' = subdividable tj) ∨
  (jobs q !! j = None ∧ ∃ t, tj' = TableJob_new t).
Proof.
  assert (∀ q0, jobs q0 = jobs q → jobs q0 !! j = Some tj' →
    (∃ tj, jobs q !! j = Some tj ∧ table tj' = table tj ∧
           table_id tj' = table_id tj ∧ subdividable tj' = subdividable tj) ∨
    (jobs q !! j = None ∧ ∃ t, tj' = TableJob_new t)) as Hsame.
  { intros q0 -> Hj. left. eauto. }
  assert (∀ f : TableJob → TableJob,
    (∀ tj, table (f tj) = table tj ∧ table_id (f tj) = table_id tj ∧
           subdividable (f tj) = subdividable tj) →
    ∀ j0, alter f j0 (jobs q) !! j = Some tj' →
    (∃ tj, jobs q !! j = Some tj ∧ table tj' = table tj ∧
           table_id tj' = table_id tj ∧ subdividable tj' = subdividable tj) ∨
    (jobs q !! j = None ∧ ∃ t, tj' = TableJob_new t)) as Halter.
  { intros f Hf j0. rewrite lookup_alter. case_decide; [subst|eauto 10].
    destruct (jobs q !! j) as [tj|]; [|done]. intros [= <-].
    left. exists tj. split; [done|]. apply Hf. }
  assert (jobs (start_sharing_work q) !! j = Some tj' →
    (∃ tj, jobs q !! j = Some tj ∧ table tj' = table tj ∧
           table_id tj' = table_id tj ∧ subdividable tj' = subdividable tj) ∨
    (jobs q !! j = None ∧ ∃ t, tj' = TableJob_new t)) as Hstart.
  { intros (tj & ? & ? & ? & ? & _)%start_sharing_work_lookup. left. eauto. }
  destruct o as [tables| | |j0|j0| | |j0 r|j0]; cbn [step].
  - intros [?|?]%enqueue_lookup; [left|right]; eauto.
  - destruct (find_table_job_cases q)
      as [[_ ->]|[(j1 & rest & _ & _ & ->)|(_ & _ & ->)]].
    + by apply Hsame.
    + by apply Hsame.
    + destruct (borrow_work_fields
                  (if sharing_work q then q else start_sharing_work q))
        as (_ & _ & _ & _ & ->).
      destruct (sharing_work q); [by apply Hsame|done].
  - apply Hsame. by destruct (borrow_work_fields q) as (_ & _ & _ & _ & ->).
  - by apply Hsame.
  - by apply Hsame.
  - done.
  - apply Hsame. unfold abort, AbortableBarrier_abort. by destruct (aborted q).
  - fields. by apply Halter.
  - fields. by apply Halter.
Qed.

(** X14: in every run of a new dispatcher, the cached [table_id] of a job
    is the id of its table and its [subdividable] flag is what
    [primary_key_subdividable] gives for its table. *)
Theorem cached_id_and_subdividable_match_the_table
    (ops : list op) (w : N) (j : job) (tj : TableJob) :
  jobs (run ops (SyncQueue_new w)) !! j = Some tj →
  table_id tj = id_from_name (table tj) ∧
  subdividable tj = primary_key_subdividable (table tj).
Proof.
  revert j tj. induction ops as [|o ops IH] using rev_ind; intros j tj.
  - cbn. by rewrite lookup_empty.
  - rewrite run_snoc.
    intros [(tj0 & Hj0 & Ht & Hid & Hsub)|(_ & t & ->)]%step_lookup; [|done].
    destruct (IH j tj0 Hj0) as [? ?]. split; congruence.
Qed.

(** X15: no operation drops a job from the store or changes its table,
    its [table_id] or its [subdividable] flag. *)
Theorem job_keeps_its_table (q : SyncQueue) (ops : list op) (j : job) (tj : TableJob) :
  jobs q !! j = Some tj →
  ∃ tj', jobs (run ops q) !! j = Some tj' ∧
         table tj' = table tj ∧ table_id tj' = table_id tj ∧
         subdividable tj' = subdividable tj.
Proof.
  induction ops as [|o ops IH] using rev_ind; intros Hj; [eauto|].
  destruct (IH Hj) as (tj1 & Hj1 & Ht & Hid & Hsub).
  rewrite run_snoc.
  assert (j ∈ dom (jobs (step (run ops q) o))) as [tj2 Hj2]%elem_of_dom.
  { apply dom_jobs_step, elem_of_dom. eauto. }
  exists tj2. split; [done|].
  apply step_lookup in Hj2 as [(tj0 & Hj0 & ? & ? & ?)|(? & _)]; [|congruence].
  assert (tj0 = tj1) as -> by congruence. split_and!; congruence.
Qed.

(** ** Enqueueing *)

(** X16: [enqueue_tables_to_process] keeps the jobs already pending at the
    front of the queue in their order, and touches neither the set being
    processed, nor the advertised set, nor the two flags, nor any job
    already in the store. *)
Theorem enqueue_leaves_the_rest_alone (tables : list Table) (q : SyncQueue) :
  tables_to_process q `prefix_of`
    tables_to_process (enqueue_tables_to_process tables q) ∧
  tables_being_processed (enqueue_tables_to_process tables q)
    = tables_being_processed q ∧
  tables_with_work_to_share (enqueue_tables_to_process tables q)
    = tables_with_work_to_share q ∧
  sharing_work (enqueue_tables_to_process tables q) = sharing_work q ∧
  aborted (enqueue_tables_to_process tables q) = aborted q ∧
  (∀ j tj, jobs q !! j = Some tj →
           jobs (enqueue_tables_to_process tables q) !! j = Some tj).
Proof.
  destruct (enqueue_tables_to_process_spec tables q)
    as (js & Hp & _ & _ & _ & _ & Hold & _ & _ & Ha & Hs & Hb & Hsh).
  cbv zeta in *. split_and!; try done.
  - rewrite Hp. by exists js.
  - intros j tj Hj. rewrite Hold; [done|]. apply elem_of_dom. eauto.
Qed.

(** ** The ready collection of a job *)

Lemma ranges_after_pops k tj :
  ranges_to_check (Nat.iter k pop_range_to_check tj)
  = drop k (ranges_to_check tj).
Proof.
  induction k as [|k IH]; [done|].
  change (Nat.iter (S k) pop_range_to_check tj)
    with (pop_range_to_check (Nat.iter k pop_range_to_check tj)).
  change (ranges_to_check (pop_range_to_check (Nat.iter k pop_range_to_check tj)))
    with (tail (ranges_to_check (Nat.iter k pop_range_to_check tj))).
  rewrite IH. generalize (ranges_to_check tj).
  clear. induction k as [|k IH]; intros [|x l]; cbn; auto.
Qed.

(** X17: in every job of every run, successive pops with no push in
    between yield ranges of non-increasing priority: the range on top
    after [k + d] pops has a priority no greater than the one on top after
    [k] pops. *)
Theorem successive_pops_have_non_increasing_priority
    (ops : list op) (w : N) (j : job) (tj : TableJob) (k d : nat)
    (a b : KeyRangeToCheck) :
  jobs (run ops (SyncQueue_new w)) !! j = Some tj →
  PriorityQueue.top (ranges_to_check (Nat.iter k pop_range_to_check tj)) = Some a →
  PriorityQueue.top (ranges_to_check (Nat.iter (k + d) pop_range_to_check tj)) = Some b →
  priority b ≤ priority a.
Proof.
  intros Hj. rewrite !ranges_after_pops.
  pose proof (ranges_ordered_run ops w j tj Hj) as Hord.
  rewrite <-(take_drop k (ranges_to_check tj)) in Hord.
  apply StronglySorted_app_1_r in Hord.
  intros Ha Hb. eapply ordered_top; [exact Hord|exact Ha|].
  rewrite <-drop_drop in Hb.
  unfold PriorityQueue.top in Hb. apply head_Some_elem_of in Hb.
  revert Hb. generalize (drop k (ranges_to_check tj)). clear.
  intros l. revert l. induction d as [|d IH]; intros [|x l]; cbn; auto.
  intros H. right. auto.
Qed.

Lemma push_Permutation r (q : ready_queue) :
  PriorityQueue.push lower_priority r q ≡ₚ r :: q.
Proof.
  induction q as [|y q IH]; cbn; [done|].
  destruct (lower_priority y r); [done|]. rewrite IH. apply Permutation_swap.
Qed.

(** X18: pushing a range onto a job's ready collection loses and
    duplicates nothing (the collection holds the new range and the ranges
    it held, in some order), leaves the rest of the job as it is, and
    makes the job have work to share. *)
Theorem push_keeps_every_range (r : KeyRangeToCheck) (tj : TableJob) :
  ranges_to_check (push_range_to_check r tj) ≡ₚ r :: ranges_to_check tj ∧
  job_have_work_to_share (push_range_to_check r tj) = true ∧
  set_ranges_to_check (ranges_to_check tj) (push_range_to_check r tj) = tj.
Proof.
  split_and!.
  - apply push_Permutation.
  - unfold job_have_work_to_share, push_range_to_check.
    cbn [ranges_to_check set_ranges_to_check].
    by destruct (ranges_to_check tj) as [|y l]; cbn; [|destruct (lower_priority y r)].
  - by destruct tj.
Qed.

(** X19: a range whose priority is strictly above that of every ready
    range of the job becomes the top of the collection when it is pushed;
    popping it leaves the ranges the collection held before, each as many
    times as before (in an order the queue is free to choose), and the
    rest of the job as it was. *)
Theorem pushed_range_of_highest_priority_is_next (r : KeyRangeToCheck) (tj : TableJob) :
  (∀ x, x ∈ ranges_to_check tj → priority x < priority r) →
  PriorityQueue.top (ranges_to_check (push_range_to_check r tj)) = Some r ∧
  ranges_to_check (pop_range_to_check (push_range_to_check r tj))
    ≡ₚ ranges_to_check tj ∧
  set_ranges_to_check (ranges_to_check tj)
    (pop_range_to_check (push_range_to_check r tj)) = tj.
Proof.
  intros Hlow.
  assert (PriorityQueue.push lower_priority r (ranges_to_check tj)
          = r :: ranges_to_check tj) as Hpush.
  { destruct (ranges_to_check tj) as [|y l]; [done|]. cbn.
    unfold lower_priority.
    assert ((priority y <? priority r) = true) as ->; [|done].
    apply N.ltb_lt, Hlow. left. }
  unfold pop_range_to_check, push_range_to_check.
  cbn [ranges_to_check set_ranges_to_check]. rewrite Hpush.
  split_and!; [done|done|by destruct tj].
Qed.

(** ** Claims once sharing mode has begun *)

Lemma find_table_job_store_when_sharing q :
  sharing_work q = true →
  jobs (find_table_job q).1 = jobs q ∧ sharing_work (find_table_job q).1 = true.
Proof.
  intros Hs. unfold find_table_job. destruct (aborted q); [done|].
  destruct (tables_to_process q); [|done]. rewrite Hs.
  by destruct (borrow_work_fields q) as (_ & -> & _ & _ & ->).
Qed.

(** X20: once [sharing_work] is set, claims set no publish flag and change
    no job: a table enqueued after sharing mode has begun is never told,
    by any number of claims, to publish its work. *)
Theorem claims_in_sharing_mode_change_no_job (n : nat) (q : SyncQueue) :
  sharing_work q = true → jobs (claims n q).1 = jobs q.
Proof.
  revert q. induction n as [|n IH]; intros q Hs; cbn [claims]; [done|].
  destruct (find_table_job_store_when_sharing q Hs) as [Hj Hs1].
  destruct (find_table_job q) as [q1 r]. cbn [fst] in *.
  specialize (IH q1 Hs1). destruct (claims n q1) as [q2 rs]. cbn [fst] in *.
  congruence.
Qed.

(** ** The further properties on sample runs *)

Lemma completing_the_last_table_releases_borrowers_witness :
  tables_to_process one_table_claimed = [] ∧
  tables_being_processed one_table_claimed ⊆ {[1%positive]} ∧
  (completed_table 1%positive one_table_claimed).2 = [notify_all_cond] ∧
  borrow_work (completed_table 1%positive one_table_claimed).1 =
    ((completed_table 1%positive one_table_claimed).1, Returned None) ∧
  (aborted one_table_claimed = false →
     (find_table_job (completed_table 1%positive one_table_claimed).1).2
     = Returned None).
Proof.
  assert (tables_being_processed one_table_claimed ⊆ {[1%positive]}) as H2
    by by_evaluation.
  split; [reflexivity|]. split; [exact H2|].
  exact (completing_the_last_table_releases_borrowers
           1%positive one_table_claimed eq_refl H2).
Defined.

Lemma offer_hands_the_job_to_a_waiting_borrower_witness :
  tables_with_work_to_share suspended_and_ready = ∅ ∧
  finished suspended_and_ready = false ∧
  has_work suspended_and_ready 1%positive = true ∧
  (have_work_to_share 1%positive suspended_and_ready).2 = [notify_all_cond] ∧
  borrow_work (have_work_to_share 1%positive suspended_and_ready).1 =
    ((have_work_to_share 1%positive suspended_and_ready).1,
     Returned (Some 1%positive)).
Proof.
  assert (tables_with_work_to_share suspended_and_ready = ∅) as H1
    by by_evaluation.
  split; [exact H1|]. split; [reflexivity|]. split; [reflexivity|].
  exact (offer_hands_the_job_to_a_waiting_borrower
           1%positive suspended_and_ready H1 eq_refl eq_refl).
Defined.

Lemma borrowed_job_has_a_ready_range_witness :
  tables_to_process ready_before_sharing = [] ∧
  (find_table_job ready_before_sharing).2 = Returned (Some 2%positive) ∧
  has_work (find_table_job ready_before_sharing).1 2%positive = true ∧
  has_work ready_before_sharing 2%positive = true ∧
  2%positive ∈ tables_with_work_to_share (find_table_job ready_before_sharing).1.
Proof.
  split; [reflexivity|]. split; [reflexivity|].
  exact (borrowed_job_has_a_ready_range
           ready_before_sharing 2%positive eq_refl eq_refl).
Defined.

Lemma returned_job_is_being_processed_witness :
  well_used
    [OpEnqueue [T1; T2]; OpClaim; OpClaim; OpPush 2%positive R5;
     OpOffer 2%positive]
    (SyncQueue_new 3) ∧
  (find_table_job
     (run [OpEnqueue [T1; T2]; OpClaim; OpClaim; OpPush 2%positive R5;
           OpOffer 2%positive]
        (SyncQueue_new 3))).2 = Returned (Some 2%positive) ∧
  2%positive ∈ tables_being_processed
    (find_table_job
       (run [OpEnqueue [T1; T2]; OpClaim; OpClaim; OpPush 2%positive R5;
             OpOffer 2%positive]
          (SyncQueue_new 3))).1 ∧
  2%positive ∈ dom (jobs
    (find_table_job
       (run [OpEnqueue [T1; T2]; OpClaim; OpClaim; OpPush 2%positive R5;
             OpOffer 2%positive]
          (SyncQueue_new 3))).1).
Proof.
  assert (well_used
    [OpEnqueue [T1; T2]; OpClaim; OpClaim; OpPush 2%positive R5;
     OpOffer 2%positive]
    (SyncQueue_new 3)) as H1.
  { cbn [well_used allowed]. split_and!; try exact I. by_evaluation. }
  split; [exact H1|]. split; [reflexivity|].
  exact (returned_job_is_being_processed _ 3 2%positive H1 eq_refl).
Defined.

Lemma claimed_job_is_never_pending_again_witness :
  1%positive ∈ dom (jobs one_table_claimed) ∧
  (1%positive ∉ tables_to_process one_table_claimed) ∧
  1%positive ∉ tables_to_process
    (run [OpEnqueue [T2]; OpClaim; OpComplete 1%positive; OpEnqueue [T1]]
       one_table_claimed).
Proof.
  assert (1%positive ∈ dom (jobs one_table_claimed)) as H1 by by_evaluation.
  assert (1%positive ∉ tables_to_process one_table_claimed) as H2
    by by_evaluation.
  split; [exact H1|]. split; [exact H2|].
  exact (claimed_job_is_never_pending_again one_table_claimed
           [OpEnqueue [T2]; OpClaim; OpComplete 1%positive; OpEnqueue [T1]]
           1%positive H1 H2).
Defined.

Lemma publish_flag_only_in_sharing_mode_witness :
  jobs (run [OpEnqueue [T1]; OpClaim; OpClaim] (SyncQueue_new 2)) !! 1%positive
    = Some (set_notify_when_work_could_be_shared true (TableJob_new T1)) ∧
  notify_when_work_could_be_shared
    (set_notify_when_work_could_be_shared true (TableJob_new T1)) = true ∧
  sharing_work (run [OpEnqueue [T1]; OpClaim; OpClaim] (SyncQueue_new 2)) = true.
Proof.
  split; [reflexivity|]. split; [reflexivity|].
  exact (publish_flag_only_in_sharing_mode
           [OpEnqueue [T1]; OpClaim; OpClaim] 2 1%positive
           (set_notify_when_work_could_be_shared true (TableJob_new T1))
           eq_refl eq_refl).
Defined.

Lemma completed_job_is_not_handed_out_witness :
  (2%positive ∉ tables_to_process three_tables_shared) ∧
  (find_table_job (completed_table 2%positive three_tables_shared).1).2
    ≠ Returned (Some 2%positive).
Proof.
  assert (2%positive ∉ tables_to_process three_tables_shared) as H1
    by by_evaluation.
  split; [exact H1|].
  exact (completed_job_is_not_handed_out three_tables_shared 2%positive H1).
Defined.

Lemma cached_id_and_subdividable_match_the_table_witness :
  jobs ready_before_sharing !! 2%positive = Some two_ranges_ready ∧
  table_id two_ranges_ready = id_from_name (table two_ranges_ready) ∧
  subdividable two_ranges_ready
    = primary_key_subdividable (table two_ranges_ready).
Proof.
  split; [reflexivity|].
  exact (cached_id_and_subdividable_match_the_table
           [OpEnqueue [T1; T2]; OpClaim; OpClaim;
            OpPush 2%positive R5; OpPush 2%positive R7]
           3 2%positive two_ranges_ready eq_refl).
Defined.

Lemma job_keeps_its_table_witness :
  jobs one_table_claimed !! 1%positive = Some (TableJob_new T1) ∧
  ∃ tj', jobs (run [OpClaim; OpPush 1%positive R5; OpComplete 1%positive]
                 one_table_claimed) !! 1%positive = Some tj' ∧
         table tj' = table (TableJob_new T1) ∧
         table_id tj' = table_id (TableJob_new T1) ∧
         subdividable tj' = subdividable (TableJob_new T1).
Proof.
  split; [reflexivity|].
  exact (job_keeps_its_table one_table_claimed
           [OpClaim; OpPush 1%positive R5; OpComplete 1%positive]
           1%positive (TableJob_new T1) eq_refl).
Defined.

Lemma successive_pops_have_non_increasing_priority_witness :
  jobs ready_before_sharing !! 2%positive = Some two_ranges_ready ∧
  PriorityQueue.top
    (ranges_to_check (Nat.iter 0 pop_range_to_check two_ranges_ready)) = Some R7 ∧
  PriorityQueue.top
    (ranges_to_check (Nat.iter (0 + 1) pop_range_to_check two_ranges_ready))
    = Some R5 ∧
  priority R5 ≤ priority R7.
Proof.
  split; [reflexivity|]. split; [reflexivity|]. split; [reflexivity|].
  exact (successive_pops_have_non_increasing_priority
           [OpEnqueue [T1; T2]; OpClaim; OpClaim;
            OpPush 2%positive R5; OpPush 2%positive R7]
           3 2%positive two_ranges_ready 0 1 R7 R5 eq_refl eq_refl eq_refl).
Defined.

Lemma pushed_range_of_highest_priority_is_next_witness :
  (∀ x, x ∈ ranges_to_check (push_range_to_check R5 (TableJob_new T2)) →
        priority x < priority R7) ∧
  PriorityQueue.top
    (ranges_to_check
       (push_range_to_check R7 (push_range_to_check R5 (TableJob_new T2))))
    = Some R7 ∧
  ranges_to_check
    (pop_range_to_check
       (push_range_to_check R7 (push_range_to_check R5 (TableJob_new T2))))
    ≡ₚ ranges_to_check (push_range_to_check R5 (TableJob_new T2)) ∧
  set_ranges_to_check
    (ranges_to_check (push_range_to_check R5 (TableJob_new T2)))
    (pop_range_to_check
       (push_range_to_check R7 (push_range_to_check R5 (TableJob_new T2))))
  = push_range_to_check R5 (TableJob_new T2).
Proof.
  assert (∀ x, x ∈ ranges_to_check (push_range_to_check R5 (TableJob_new T2)) →
               priority x < priority R7) as H1.
  { intros x Hx. apply list_elem_of_singleton in Hx. subst x. reflexivity. }
  split; [exact H1|].
  exact (pushed_range_of_highest_priority_is_next
           R7 (push_range_to_check R5 (TableJob_new T2)) H1).
Defined.

Lemma claims_in_sharing_mode_change_no_job_witness :
  sharing_work (enqueue_tables_to_process [T2] second_claim.1) = true ∧
  jobs (claims 2 (enqueue_tables_to_process [T2] second_claim.1)).1
    = jobs (enqueue_tables_to_process [T2] second_claim.1).
Proof.
  split; [reflexivity|].
  exact (claims_in_sharing_mode_change_no_job
           2 (enqueue_tables_to_process [T2] second_claim.1) eq_refl).
Defined.
